(** * ag_ppr: exam-question extraction and paper download

    A shallow embedding of [src/tools/extractor.py] (class
    [QuestionExtractor]), of [src/tools/scraper.py] (class [ExamScraper]) and
    of the string and file helpers of [src/tools/utils.py], with the
    properties of the natural-language specification stated and settled
    against it, followed by further properties read off the code.

    Python [str] values are modelled as lists of characters.  A character is
    a Rocq [ascii], read as one of the code points U+0000 .. U+00FF; the
    character functions below ([isspace], [lower], the regular-expression
    classes) follow CPython's Unicode tables on that range. *)

From Stdlib Require Import Ascii String NArith.
From stdpp Require Import base list strings gmap sorting.

Local Open Scope N_scope.
Local Open Scope nat_scope.

(** * The program *)

(** ** Python strings *)

Abbreviation str := (list ascii).

(** A string literal of the source. *)
Definition py (lit : string) : str := list_ascii_of_string lit.

Definition code (c : ascii) : N := N_of_ascii c.

Definition between (lo hi n : N) : bool := ((lo <=? n) && (n <=? hi))%N.

(** [str.isspace] on one character (CPython [Py_UNICODE_ISSPACE]): TAB, LF,
    VT, FF, CR, the separators FS GS RS US, SPACE, NEL and NBSP. *)
Definition isspace (c : ascii) : bool :=
  between 9 13 (code c) || between 28 32 (code c)
  || (code c =? 133)%N || (code c =? 160)%N.

(** [str.lower] on one character: A-Z, and the Latin-1 capitals U+00C0 ..
    U+00DE except the multiplication sign U+00D7. *)
Definition lower_char (c : ascii) : ascii :=
  if between 65 90 (code c) || between 192 214 (code c) || between 216 222 (code c)
  then ascii_of_N (code c + 32) else c.

(** [s.lower()] *)
Definition lower (s : str) : str := map lower_char s.

(** [s.lstrip()], [s.rstrip()] and [s.strip()] *)
Fixpoint lstrip (s : str) : str :=
  match s with
  | c :: s' => if isspace c then lstrip s' else s
  | [] => []
  end.

Fixpoint rstrip (s : str) : str :=
  match s with
  | c :: s' =>
      match rstrip s' with
      | [] => if isspace c then [] else [c]
      | r => c :: r
      end
  | [] => []
  end.

Definition strip (s : str) : str := rstrip (lstrip s).

(** Splitting at every separator character: the fields between separators,
    empty ones included.  [text.split('\n')] is [fields] at the newline. *)
Definition push (c : ascii) (fs : list str) : list str :=
  match fs with
  | f :: fs' => (c :: f) :: fs'
  | [] => [[c]]
  end.

Fixpoint fields (sep : ascii -> bool) (s : str) : list str :=
  match s with
  | c :: s' => if sep c then [] :: fields sep s' else push c (fields sep s')
  | [] => [[]]
  end.

Definition nonempty (s : str) : bool :=
  match s with [] => false | _ => true end.

(** [s.split()]: runs of whitespace separate, and no empty string is
    returned. *)
Definition split (s : str) : list str := filter (fun w => nonempty w = true) (fields isspace s).

(** [sep.join(ws)] *)
Fixpoint join (sep : str) (ws : list str) : str :=
  match ws with
  | [] => []
  | [w] => w
  | w :: ws' => w ++ sep ++ join sep ws'
  end.

(** [s.startswith(p)] and the substring test [x in s]. *)
Fixpoint startswith (p s : str) : bool :=
  match p, s with
  | [], _ => true
  | a :: p', c :: s' => bool_decide (a = c) && startswith p' s'
  | _ :: _, [] => false
  end.

Fixpoint str_in (x s : str) : bool :=
  startswith x s || match s with
                    | _ :: s' => str_in x s'
                    | [] => false
                    end.

(** [any(f(x) for x in xs)] *)
Definition any {A} (f : A -> bool) (xs : list A) : bool := existsb f xs.

Definition newline : ascii := ascii_of_nat 10.

(** ** Regular expressions ([re])

    The patterns of the source are sequences of anchors and of single
    character classes under the quantifiers [*], [+] and [?]; they are
    embedded as such, and matched the way [re] does: left to right, each
    quantifier greedy, a shorter repetition being tried only when the rest of
    the pattern fails. *)

Record flags := { IGNORECASE : bool; MULTILINE : bool }.

(** A member of a bracketed set: one character, or a range [lo-hi]. *)
Inductive member :=
  | Ch (c : ascii)
  | Rng (lo hi : ascii).

Inductive cls :=
  | Lit (c : ascii)               (* the character itself *)
  | Set_ (members : list member)  (* [...] *)
  | Digit                         (* \d *)
  | Space                         (* \s *)
  | Dot.                          (* . *)

Inductive item :=
  | Bol                           (* ^ *)
  | Eol                           (* $ *)
  | One (a : cls)
  | Star (a : cls)                (* a* *)
  | Plus (a : cls)                (* a+ *)
  | Opt (a : cls).                (* a? *)

Abbreviation regex := (list item).

(** The characters of a range, in order. *)
Definition chars_of_range (lo hi : ascii) : list ascii :=
  map (fun n => ascii_of_nat (nat_of_ascii lo + n))
      (seq 0 (S (nat_of_ascii hi) - nat_of_ascii lo)).

Definition chars_of_member (m : member) : list ascii :=
  match m with
  | Ch c => [c]
  | Rng lo hi => chars_of_range lo hi
  end.

(** Two characters are equal, or equal up to case under IGNORECASE. *)
Definition same_char (f : flags) (c x : ascii) : bool :=
  if IGNORECASE f then bool_decide (lower_char x = lower_char c)
  else bool_decide (x = c).

Definition is_digit (x : ascii) : bool := between 48 57 (code x).

Definition in_cls (f : flags) (a : cls) (x : ascii) : bool :=
  match a with
  | Lit c => same_char f c x
  | Set_ members => any (fun m => any (fun c => same_char f c x) (chars_of_member m)) members
  | Digit => is_digit x
  | Space => isspace x
  | Dot => negb (bool_decide (x = newline))
  end.

(** [^]: at the start of the string, and after a newline under MULTILINE.
    [prev] is the character before the current position, if any. *)
Definition at_bol (f : flags) (prev : option ascii) : bool :=
  match prev with
  | None => true
  | Some c => MULTILINE f && bool_decide (c = newline)
  end.

(** [$]: at the end of the string or before a newline that ends it, and
    before any newline under MULTILINE. *)
Definition at_eol (f : flags) (s : str) : bool :=
  match s with
  | [] => true
  | c :: s' => bool_decide (c = newline) && (MULTILINE f || negb (nonempty s'))
  end.

(** A match result: the character before the end of the match, and the
    text after it. *)
Abbreviation result := (option (option ascii * str)).

Definition or_else (m : result) (other : result) : result :=
  match m with
  | Some _ => m
  | None => other
  end.

(** Greedy repetition of a class, then the continuation [k]: the longest
    repetition first, then shorter ones. *)
Fixpoint greedy (f : flags) (a : cls) (k : option ascii -> str -> result)
    (prev : option ascii) (s : str) : result :=
  match s with
  | c :: s' =>
      if in_cls f a c then or_else (greedy f a k (Some c) s') (k prev s)
      else k prev s
  | [] => k prev s
  end.

(** Match the pattern at the current position. *)
Fixpoint match_here (f : flags) (r : regex) (prev : option ascii) (s : str) : result :=
  match r with
  | [] => Some (prev, s)
  | Bol :: r' => if at_bol f prev then match_here f r' prev s else None
  | Eol :: r' => if at_eol f s then match_here f r' prev s else None
  | One a :: r' =>
      match s with
      | c :: s' => if in_cls f a c then match_here f r' (Some c) s' else None
      | [] => None
      end
  | Star a :: r' => greedy f a (match_here f r') prev s
  | Plus a :: r' =>
      match s with
      | c :: s' => if in_cls f a c then greedy f a (match_here f r') (Some c) s' else None
      | [] => None
      end
  | Opt a :: r' =>
      match s with
      | c :: s' =>
          if in_cls f a c then or_else (match_here f r' (Some c) s') (match_here f r' prev s)
          else match_here f r' prev s
      | [] => match_here f r' prev s
      end
  end.

(** [re.match(pattern, string, flags)], as a truth value. *)
Definition re_match (pattern : regex) (string : str) (f : flags) : bool :=
  match match_here f pattern None string with
  | Some _ => true
  | None => false
  end.

(** [re.sub(pattern, repl, string, flags=flags)]: scan from the left; at each
    position a match is replaced by [repl] and the scan continues after it,
    and where there is no match one character is copied.  After an empty
    match the next character is copied. *)
Fixpoint sub_loop (fuel : nat) (f : flags) (pattern : regex) (repl : str)
    (prev : option ascii) (s : str) : str :=
  match fuel with
  | 0 => s
  | S fuel' =>
      let copy :=
        match s with
        | c :: s' => c :: sub_loop fuel' f pattern repl (Some c) s'
        | [] => []
        end in
      match match_here f pattern prev s with
      | Some (prev', rest) =>
          if bool_decide (length rest < length s)
          then repl ++ sub_loop fuel' f pattern repl prev' rest
          else repl ++ copy
      | None => copy
      end
  end.

Definition re_sub (pattern : regex) (repl : str) (string : str) (f : flags) : str :=
  sub_loop (S (length string)) f pattern repl None string.

(** The characters of a literal word, one item each. *)
Definition word (lit : string) : regex := map (fun c => One (Lit c)) (py lit).

Definition re_I : flags := {| IGNORECASE := true; MULTILINE := false |}.
Definition re_MI : flags := {| IGNORECASE := true; MULTILINE := true |}.

(** ** [QuestionExtractor._clean_question] *)

(** [prefixes]: [^\d+[\.\)]\s*], [^[A-Z]\)\s*], [^Question\s+\d+[:\.]?\s*]
    and [^Q\d+[:\.]?\s*]. *)
Definition numeric_prefix : regex :=
  [Bol; Plus Digit; One (Set_ [Ch "."; Ch ")"]); Star Space].
Definition lettered_prefix : regex :=
  [Bol; One (Set_ [Rng "A" "Z"]); One (Lit ")"); Star Space].
Definition question_prefix : regex :=
  [Bol] ++ word "Question" ++ [Plus Space; Plus Digit; Opt (Set_ [Ch ":"; Ch "."]); Star Space].
Definition q_prefix : regex :=
  [Bol; One (Lit "Q"); Plus Digit; Opt (Set_ [Ch ":"; Ch "."]); Star Space].

Definition prefixes : list regex :=
  [numeric_prefix; lettered_prefix; question_prefix; q_prefix].

(** [' '.join(question.split())] *)
Definition collapse (question : str) : str := join (py " ") (split question).

Definition _clean_question (question : str) : str :=
  let question := collapse question in
  let question := foldl (fun question prefix => re_sub prefix [] question re_I) question prefixes in
  strip question.

(** ** [QuestionExtractor._extract_questions_basic] *)

(** [patterns]: [^\s*\d+[\.\)]\s*.+\?], [^\s*[A-Z]\)\s*.+\?],
    [^\s*Question\s+\d+[:\.]?\s*.+], [^\s*Q\d+[:\.]?\s*.+] and [^.+\?\s*$]. *)
Definition patterns : list regex :=
  [ [Bol; Star Space; Plus Digit; One (Set_ [Ch "."; Ch ")"]); Star Space; Plus Dot; One (Lit "?")];
    [Bol; Star Space; One (Set_ [Rng "A" "Z"]); One (Lit ")"); Star Space; Plus Dot; One (Lit "?")];
    [Bol; Star Space] ++ word "Question"
      ++ [Plus Space; Plus Digit; Opt (Set_ [Ch ":"; Ch "."]); Star Space; Plus Dot];
    [Bol; Star Space; One (Lit "Q"); Plus Digit; Opt (Set_ [Ch ":"; Ch "."]); Star Space; Plus Dot];
    [Bol; Plus Dot; One (Lit "?"); Star Space; Eol] ].

(** The inner loop over [patterns]: the first pattern that matches decides,
    and the loop stops there. *)
Fixpoint try_patterns (ps : list regex) (line : str) (questions : list str) : list str :=
  match ps with
  | pattern :: ps' =>
      if re_match pattern line re_MI then
        let cleaned := _clean_question line in
        if nonempty cleaned && bool_decide (15 < length cleaned)
        then questions ++ [cleaned] else questions
      else try_patterns ps' line questions
  | [] => questions
  end.

(** One iteration of the loop over the lines. *)
Definition line_step (questions : list str) (line : str) : list str :=
  let line := strip line in
  if bool_decide (length line < 10) then questions
  else try_patterns patterns line questions.

(** The list [questions] after the first loop. *)
Definition candidates (text : str) : list str :=
  let lines := fields (fun c => bool_decide (c = newline)) text in
  foldl line_step [] lines.

(** One iteration of the second loop: [seen] is the membership set,
    [unique_questions] the list built so far. *)
Definition dedup_step (st : gset str * list str) (q : str) : gset str * list str :=
  let '(seen, unique_questions) := st in
  if bool_decide (q ∈ seen) then st
  else ({[q]} ∪ seen, unique_questions ++ [q]).

Definition remove_duplicates (questions : list str) : list str :=
  (foldl dedup_step (∅, []) questions).2.

Definition _extract_questions_basic (text : str) : list str :=
  remove_duplicates (candidates text).

(** ** [QuestionExtractor._filter_by_topic] *)

Definition related_terms : list str :=
  [py "matrix"; py "vector"; py "equation"; py "system"].

(** One iteration of the loop over [questions]. *)
Definition filter_step (topic : str) (topic_words : list str)
    (filtered : list str) (question : str) : list str :=
  let question_lower := lower question in
  let filtered :=
    if any (fun word => str_in word question_lower) topic_words
    then filtered ++ [question] else filtered in
  if str_in (py "algebra") (lower topic)
     && any (fun term => str_in term question_lower) related_terms
  then if bool_decide (question ∈ filtered) then filtered else filtered ++ [question]
  else filtered.

Definition _filter_by_topic (questions : list str) (topic : str) : list str :=
  match topic with
  | [] => questions
  | _ =>
      let topic_words := split (lower topic) in
      foldl (filter_step topic topic_words) [] questions
  end.

(** ** [QuestionExtractor._enhance_with_llm] *)

(** Exceptions: a name that is not bound, or anything the completion
    service or the reading of its response raises. *)
Inductive exn :=
  | NameError (name : string)
  | ServiceError.

(** The names bound at module level in [extractor.py]: its imports and its
    class.  The module [time] is not among them. *)
Definition extractor_globals : gset string :=
  list_to_set ["PyPDF2"; "re"; "json"; "Path"; "List"; "Optional"; "openai"; "os";
               "print_info"; "print_success"; "print_error"; "print_progress";
               "QuestionExtractor"]%string.

(** [time.sleep(0.5)]: the name [time] is looked up in the module's globals. *)
Definition time_sleep (globals : gset string) : option exn :=
  if bool_decide ("time"%string ∈ globals) then None else Some (NameError "time").

(** The completion service: the content of the answer to the [n]-th request,
    or an exception. *)
Abbreviation llm := (nat -> str -> exn + str).

Definition dquote : ascii := ascii_of_nat 34.
Definition indent : str := py "                ".

(** The f-string of the loop body. *)
Definition prompt (topic question : str) : str :=
  [newline]
  ++ indent ++ py "Analyze this exam question and determine if it's truly related to "
  ++ [dquote] ++ topic ++ [dquote] ++ py ". " ++ [newline]
  ++ indent ++ py "If it is related, clean it up and make it more clear. " ++ [newline]
  ++ indent ++ py "If it's not related, respond with "
  ++ [dquote] ++ py "UNRELATED" ++ [dquote] ++ py "." ++ [newline]
  ++ indent ++ [newline]
  ++ indent ++ py "Question: " ++ question ++ [newline]
  ++ indent ++ [newline]
  ++ indent ++ py "Respond with either the cleaned question or "
  ++ [dquote] ++ py "UNRELATED" ++ [dquote] ++ py ":" ++ [newline]
  ++ indent.

(** One iteration of the loop: the list [enhanced_questions] after it, and
    the exception that left it, if any.  An append made before an exception
    stays in the list. *)
Definition enhance_iteration (globals : gset string) (complete : llm) (n : nat)
    (topic : str) (enhanced_questions : list str) (question : str)
    : list str * option exn :=
  match complete n (prompt topic question) with
  | inl e => (enhanced_questions, Some e)
  | inr content =>
      let result := strip content in
      let enhanced_questions :=
        if negb (bool_decide (result = py "UNRELATED")) && bool_decide (10 < length result)
        then enhanced_questions ++ [result] else enhanced_questions in
      (enhanced_questions, time_sleep globals)
  end.

Fixpoint enhance_loop (globals : gset string) (complete : llm) (n : nat)
    (topic : str) (enhanced_questions : list str) (questions : list str)
    : list str * option exn :=
  match questions with
  | question :: questions' =>
      match enhance_iteration globals complete n topic enhanced_questions question with
      | (enhanced_questions, None) =>
          enhance_loop globals complete (S n) topic enhanced_questions questions'
      | (enhanced_questions, Some e) => (enhanced_questions, Some e)
      end
  | [] => (enhanced_questions, None)
  end.

(** [llm_client] is [None] when no API key was found.  The [except] clause
    returns the list the method was given. *)
Definition _enhance_with_llm (globals : gset string) (llm_client : option llm)
    (questions : list str) (topic : str) : list str :=
  match llm_client with
  | None => questions
  | Some complete =>
      match enhance_loop globals complete 0 topic [] questions with
      | (enhanced_questions, None) => enhanced_questions
      | (_, Some _) => questions
      end
  end.

(** ** [QuestionExtractor.extract_questions], from the text of the PDF *)

Definition extract_questions (globals : gset string) (llm_client : option llm)
    (text_content : str) (topic : str) (use_llm : bool) : list str :=
  match text_content with
  | [] => []
  | _ =>
      let questions := _extract_questions_basic text_content in
      let filtered_questions := _filter_by_topic questions topic in
      if use_llm && bool_decide (is_Some llm_client)
         && bool_decide (filtered_questions ≠ [])
      then _enhance_with_llm globals llm_client filtered_questions topic
      else filtered_questions
  end.

(** ** [ExamScraper._download_paper] *)

Abbreviation bytes := (list Byte.byte).

(** The files on disk: the content stored under each path. *)
Abbreviation files := (gmap str bytes).

Record paper_info := {
  url : str;
  title : str;
  subject : str;
  topic : str
}.

(** What [session.get] returns: the status, the content-type header if the
    response has one, and the body. *)
Record response := {
  status_code : nat;
  content_type_header : option str;
  content : bytes
}.

(** The outcome of the request: an exception of [requests] (no connection,
    timeout, ...) or a response. *)
Inductive fetched :=
  | RequestFailed
  | Response (r : response).

(** [response.raise_for_status()] raises for the statuses 400 to 599. *)
Definition raise_for_status (r : response) : bool :=
  bool_decide (400 ≤ status_code r) && bool_decide (status_code r < 600).

(** [c.isalnum()] on the code points below U+0100. *)
Definition isalnum (c : ascii) : bool :=
  between 48 57 (code c) || between 65 90 (code c) || between 97 122 (code c)
  || (code c =? 170)%N || between 178 179 (code c) || (code c =? 181)%N
  || between 185 186 (code c) || between 188 190 (code c)
  || between 192 214 (code c) || between 216 246 (code c) || between 248 255 (code c).

(** [s.replace(' ', '_')] *)
Definition replace_spaces (s : str) : str :=
  map (fun c => if bool_decide (c = " "%char) then "_"%char else c) s.

Definition download_dir : str := py "data/raw_papers".

(** The path under which a paper is stored. *)
Definition file_path_of (paper : paper_info) : str :=
  let safe_title :=
    rstrip (filter (fun c => isalnum c = true ∨ c ∈ [" "; "-"; "_"]%char) (title paper)) in
  let safe_title := replace_spaces safe_title in
  let filename := safe_title ++ py ".pdf" in
  download_dir ++ py "/" ++ filename.

(** What [open(file_path, 'wb')] and the statements that follow do: the body
    is written and the method returns the path; or [open] raises and no file
    is made; or the file is opened and an exception follows, in the write or
    after it, which leaves a file with some content [partial]. *)
Inductive write_outcome :=
  | Written
  | NotOpened
  | WriteFailed (partial : bytes).

(** The file system at one call: whether [Path.exists()] raises for a path
    (a name that is too long, a directory that may not be searched), and
    what writing a file does. *)
Record file_system := {
  exists_raises : str -> bool;
  write_file : str -> bytes -> write_outcome
}.

(** How a call ends: an exception leaves it, or it returns a path or
    [None]. *)
Inductive download_result :=
  | Raises
  | Returns (file_path : option str).

(** The method, given the file system and the outcome of the request for
    each URL: the files after the call, and how the call ends.  The test
    [file_path.exists()] stands before the [try]; every exception after it
    is caught and gives [None]. *)
Definition _download_paper (os : file_system) (get : str -> fetched) (disk : files)
    (paper : paper_info) : files * download_result :=
  let file_path := file_path_of paper in
  if exists_raises os file_path then (disk, Raises)
  else if bool_decide (is_Some (disk !! file_path)) then (disk, Returns (Some file_path))
  else
    match get (url paper) with
    | RequestFailed => (disk, Returns None)
    | Response r =>
        if raise_for_status r then (disk, Returns None)
        else
          let content_type := lower (default [] (content_type_header r)) in
          if negb (str_in (py "pdf") content_type) && bool_decide (length (content r) < 1000)
          then (disk, Returns None)
          else
            match write_file os file_path (content r) with
            | Written => (<[file_path := content r]> disk, Returns (Some file_path))
            | NotOpened => (disk, Returns None)
            | WriteFailed partial => (<[file_path := partial]> disk, Returns None)
            end
    end.

(** ** [QuestionExtractor._extract_pdf_text]

    The PDF reader is outside the repository: a file that cannot be read is
    [None], and each page gives its text or raises. *)
Definition _extract_pdf_text (pdf : option (list (exn + str))) : str :=
  match pdf with
  | None => []
  | Some pages =>
      foldl (fun text_content page =>
               match page with
               | inr page_text => text_content ++ page_text ++ [newline]
               | inl _ => text_content
               end) [] pages
  end.

(** ** [ExamScraper._generate_search_urls], [_search_papers], [scrape_papers] *)

Definition _generate_search_urls (subject topic : str) : list str :=
  [ py "https://example-academic-site.com/search?q=" ++ subject ++ py "+" ++ topic
      ++ py "+exam";
    py "https://papers.example.com/search?subject=" ++ subject ++ py "&topic=" ++ topic ].

(** [s.endswith(p)] *)
Definition endswith (p s : str) : bool := startswith (reverse p) (reverse s).

(** An [<a href=...>] element of a parsed page: its [href] attribute and its
    text ([get_text()]). *)
Record anchor := {
  href : str;
  text : str
}.

(** What requesting and parsing a search page gives: an exception of
    [requests] (also for an error status), another exception, or the anchors
    with an [href], in document order. *)
Inductive page :=
  | PageRequestFailed
  | PageRaised
  | Page (links : list anchor).

(** The loop body of [_search_papers]: the entry a link adds to [papers], if
    any.  [urljoin] is the function of [urllib.parse]. *)
Definition paper_of_link (urljoin : str -> str -> str) (search_url subject topic : str)
    (link : anchor) : list paper_info :=
  if nonempty (href link)
     && (endswith (py ".pdf") (href link) || str_in (py "pdf") (lower (href link)))
  then
    let link_text := lower (text link) in
    let href_lower := lower (href link) in
    if (str_in (lower subject) link_text || str_in (lower subject) href_lower)
       && (str_in (lower topic) link_text || str_in (lower topic) href_lower)
    then
      let full_url := urljoin search_url (href link) in
      [ {| url := full_url;
           title := match strip (text link) with
                    | [] => subject ++ py "_" ++ topic ++ py "_paper"
                    | stripped => stripped
                    end;
           subject := subject;
           topic := topic |} ]
    else []
  else [].


(** [None] stands for an exception that [_search_papers] does not catch. *)
Definition _search_papers (urljoin : str -> str -> str) (fetch : str -> page)
    (search_url subject topic : str) : option (list paper_info) :=
  match fetch search_url with
  | PageRequestFailed => Some []
  | PageRaised => None
  | Page links =>
      let papers :=
        foldl (fun papers link => papers ++ paper_of_link urljoin search_url subject topic link)
              [] links in
      Some (take 5 papers)
  end.

(** The inner loop of [scrape_papers], from the disk, the list
    [downloaded_files] and the number of downloads attempted so far; [os k]
    and [get k] are the file system and the answers of the servers at the
    [k]-th download.  When [_download_paper] raises, the [except] clause of
    [scrape_papers] gives up the rest of the papers of this search. *)
Fixpoint download_papers (os : nat -> file_system) (get : nat -> str -> fetched)
    (st : files * list str * nat) (papers : list paper_info) : files * list str * nat :=
  match papers with
  | paper :: papers' =>
      let '(disk, downloaded_files, k) := st in
      match _download_paper (os k) (get k) disk paper with
      | (disk, Returns (Some file_path)) =>
          download_papers os get
            (disk, if nonempty file_path then downloaded_files ++ [file_path]
                   else downloaded_files, S k) papers'
      | (disk, Returns None) => download_papers os get (disk, downloaded_files, S k) papers'
      | (disk, Raises) => (disk, downloaded_files, S k)
      end
  | [] => st
  end.

(** The outer loop: a search that raises is skipped. *)
Definition search_step (urljoin : str -> str -> str) (fetch : str -> page)
    (os : nat -> file_system) (get : nat -> str -> fetched) (subject topic : str)
    (st : files * list str * nat) (search_url : str) : files * list str * nat :=
  match _search_papers urljoin fetch search_url subject topic with
  | Some papers => download_papers os get st papers
  | None => st
  end.

(** [mkdir_raises] tells whether creating the download directory raises;
    that exception leaves [scrape_papers], which is the result [None]. *)
Definition scrape_papers (urljoin : str -> str -> str) (fetch : str -> page)
    (mkdir_raises : bool) (os : nat -> file_system) (get : nat -> str -> fetched)
    (disk : files) (subject topic : str) : files * option (list str) :=
  if mkdir_raises then (disk, None)
  else
    let search_urls := _generate_search_urls subject topic in
    let '(disk, downloaded_files, _) :=
      foldl (search_step urljoin fetch os get subject topic) (disk, [], 0) search_urls in
    (disk, Some downloaded_files).

(** ** [utils.py] *)

(** [s.replace(old, new)] for single characters. *)
Definition replace_char (old new : ascii) (s : str) : str :=
  map (fun c => if bool_decide (c = old) then new else c) s.

Definition invalid_chars : str := py "<>:" ++ [dquote] ++ py "/\|?*".

Definition clean_filename (filename : str) : str :=
  let filename := foldl (fun filename char => replace_char char "_" filename)
                        filename invalid_chars in
  join (py "_") (split filename).

Definition create_cache_key (subject topic : str) : str :=
  replace_char " " "_" (lower subject) ++ py "_" ++ replace_char " " "_" (lower topic).

(** The disk holds regular files only. *)
Definition file_exists (disk : files) (file_path : str) : bool :=
  bool_decide (is_Some (disk !! file_path)).

Definition get_file_size (disk : files) (file_path : str) : nat :=
  match disk !! file_path with
  | Some file_content => length file_content
  | None => 0
  end.

#[global] Instance byte_eq_dec : EqDecision Byte.byte := Byte.byte_eq_dec.

(** [b'%PDF'] *)
Definition pdf_magic : bytes := [Byte.x25; Byte.x50; Byte.x44; Byte.x46].

Definition is_valid_pdf (disk : files) (file_path : str) : bool :=
  match disk !! file_path with
  | Some file_content => bool_decide (take 4 file_content = pdf_magic)
  | None => false
  end.

(** * Vocabulary of the properties *)

(** [x] occurs in [s] as a contiguous substring. *)
Definition occurs_in (x s : str) : Prop := ∃ a b, s = a ++ x ++ b.

(** The two inclusion rules of [_filter_by_topic], as the loop tests them. *)
Definition keeps (topic : str) (topic_words : list str) (question : str) : bool :=
  any (fun word => str_in word (lower question)) topic_words
  || (str_in (py "algebra") (lower topic)
      && any (fun term => str_in term (lower question)) related_terms).

(** (a) some token of the topic occurs in the lowercased question. *)
Definition token_rule (topic q : str) : Prop :=
  ∃ word, word ∈ split (lower topic) ∧ occurs_in word (lower q).

(** (b) the topic mentions algebra and the question one of the related terms. *)
Definition algebra_rule (topic q : str) : Prop :=
  occurs_in (py "algebra") (lower topic)
  ∧ ∃ term, term ∈ related_terms ∧ occurs_in term (lower q).

(** Position [i] of [l] holds the first occurrence of [x]. *)
Definition first_occurrence (l : list str) (i : nat) (x : str) : Prop :=
  l !! i = Some x ∧ x ∉ take i l.

(** The matcher, as the first loop applies it to a line of the text: the
    line is stripped, it must then have at least 10 characters, and one of
    the patterns must match it. *)
Definition is_question (line : str) : bool :=
  let line := strip line in
  negb (bool_decide (length line < 10))
  && any (fun pattern => re_match pattern line re_MI) patterns.

(** What one line of the text contributes to [questions]. *)
Definition candidate_of (line : str) : list str :=
  if is_question line && bool_decide (15 < length (_clean_question (strip line)))
  then [_clean_question (strip line)] else [].

(** The character before the position reached after reading [p]. *)
Definition prev_after (prev : option ascii) (p : str) : option ascii :=
  match last p with
  | Some c => Some c
  | None => prev
  end.

(** [denotes f r prev p after]: the text [p], found after the character
    [prev] and followed by [after], is a match of the pattern [r]. *)
Fixpoint denotes (f : flags) (r : regex) (prev : option ascii) (p after : str) : Prop :=
  match r with
  | [] => p = []
  | Bol :: r' => at_bol f prev = true ∧ denotes f r' prev p after
  | Eol :: r' => at_eol f (p ++ after) = true ∧ denotes f r' prev p after
  | One a :: r' =>
      ∃ c p', p = c :: p' ∧ in_cls f a c = true ∧ denotes f r' (Some c) p' after
  | Star a :: r' =>
      ∃ p1 p2, p = p1 ++ p2 ∧ Forall (λ c, in_cls f a c = true) p1
               ∧ denotes f r' (prev_after prev p1) p2 after
  | Plus a :: r' =>
      ∃ p1 p2, p = p1 ++ p2 ∧ p1 ≠ [] ∧ Forall (λ c, in_cls f a c = true) p1
               ∧ denotes f r' (prev_after prev p1) p2 after
  | Opt a :: r' =>
      denotes f r' prev p after
      ∨ ∃ c p', p = c :: p' ∧ in_cls f a c = true ∧ denotes f r' (Some c) p' after
  end.

(** The least number of characters a match of the pattern has. *)
Fixpoint min_length (r : regex) : nat :=
  match r with
  | One _ :: r' | Plus _ :: r' => S (min_length r')
  | _ :: r' => min_length r'
  | [] => 0
  end.

(** [removed pattern p w]: the substitution of [pattern] took [p] away in
    front of [w]; either nothing, the pattern not matching [w], or a
    non-empty match of the pattern. *)
Definition removed (pattern : regex) (p w : str) : Prop :=
  (p = [] ∧ re_match pattern w re_I = false)
  ∨ (p ≠ [] ∧ re_match pattern (p ++ w) re_I = true ∧ denotes re_I pattern None p w).

Definition carries_prefix (w : str) : Prop :=
  ∃ prefix, prefix ∈ prefixes ∧ re_match prefix w re_I = true.

(** A string does not begin, or does not end, with a whitespace character. *)
Definition starts_clean (s : str) : Prop :=
  match s with
  | c :: _ => isspace c = false
  | [] => True
  end.

Fixpoint ends_clean (s : str) : Prop :=
  match s with
  | [] => True
  | [c] => isspace c = false
  | _ :: s' => ends_clean s'
  end.

(** Every whitespace character is a space, and no two are adjacent. *)
Fixpoint tidy (s : str) : Prop :=
  match s with
  | [] => True
  | c :: s' => (isspace c = true → c = " "%char ∧ starts_clean s') ∧ tidy s'
  end.

(** The validation of a response: its content type declares PDF, or its
    body has at least 1000 bytes. *)
Definition valid_pdf_response (r : response) : Prop :=
  occurs_in (py "pdf") (lower (default [] (content_type_header r)))
  ∨ 1000 ≤ length (content r).

(** The lists that the loop of [_filter_by_topic] builds: every element is
    kept by one of the two rules, and an element that only the second rule
    keeps does not occur before itself. *)
Inductive filtered_list (topic : str) (topic_words : list str) : list str → Prop :=
  | filtered_nil : filtered_list topic topic_words []
  | filtered_snoc l q :
      filtered_list topic topic_words l →
      keeps topic topic_words q = true →
      any (fun word => str_in word (lower q)) topic_words = true ∨ q ∉ l →
      filtered_list topic topic_words (l ++ [q]).

(** The state of the loops of [scrape_papers], started on the disk [disk0]:
    no file of [disk0] was changed, every listed path is on disk, every
    other path is as it was unless it is the path computed for some paper,
    and at most one path was listed for each download attempted. *)
Definition scrape_inv (disk0 : files) (st : files * list str * nat) : Prop :=
  let '(disk, downloaded_files, k) := st in
  disk0 ⊆ disk
  ∧ Forall (λ p, is_Some (disk !! p)) downloaded_files
  ∧ (∀ p, disk !! p = disk0 !! p ∨ ∃ paper, p = file_path_of paper)
  ∧ length downloaded_files ≤ k.

(** * Properties *)

(** ** Evaluation on examples *)

Example filter_by_topic_ex :
  _filter_by_topic [py "Solve the Matrix"; py "Name a linear map"; py "Define a group"]
                  (py "Linear Algebra")
  = [py "Solve the Matrix"; py "Name a linear map"].
Proof. vm_compute. reflexivity. Qed.

Example remove_duplicates_ex :
  remove_duplicates [py "b"; py "a"; py "b"; py "c"; py "a"] = [py "b"; py "a"; py "c"].
Proof. vm_compute. reflexivity. Qed.

Example clean_question_ex1 :
  _clean_question (py "1.   What is   the determinant of a 2x2 matrix?")
  = py "What is the determinant of a 2x2 matrix?".
Proof. vm_compute. reflexivity. Qed.

Example clean_question_ex2 :
  _clean_question (py "question 12: Define a vector space") = py "Define a vector space".
Proof. vm_compute. reflexivity. Qed.

Example clean_question_ex3 :
  _clean_question (py "Q7. Define a vector space") = py "Define a vector space".
Proof. vm_compute. reflexivity. Qed.

Example clean_question_ex4 :
  _clean_question (py "b) Define a vector space") = py "Define a vector space".
Proof. vm_compute. reflexivity. Qed.

Example split_ex : split (py "  Linear   Algebra ") = [py "Linear"; py "Algebra"].
Proof. vm_compute. reflexivity. Qed.

Example strip_ex : strip (py "  Q1: x  ") = py "Q1: x".
Proof. vm_compute. reflexivity. Qed.

Example re_sub_ex1 : re_sub [Star (Lit "x")] (py "-") (py "axb") re_I = py "-a--b-".
Proof. vm_compute. reflexivity. Qed.

Example re_sub_ex2 : re_sub [Plus Digit] (py "#") (py "a12b3") re_I = py "a#b#".
Proof. vm_compute. reflexivity. Qed.

Example patterns_ex :
  map (fun pattern => re_match pattern (py "QUESTION 5 state the theorem") re_MI) patterns
  = [false; false; true; false; false].
Proof. vm_compute. reflexivity. Qed.

(** A short line is skipped, a duplicate is returned once, and a line that
    no pattern matches adds nothing. *)
Example extract_questions_basic_ex :
  _extract_questions_basic
    (py "Hi" ++ [newline]
     ++ py "  1. What is the determinant of a 2x2 matrix?  " ++ [newline]
     ++ py "Section B: answer all parts" ++ [newline]
     ++ py "Q2: Explain the rank-nullity theorem" ++ [newline]
     ++ py "2) What is the determinant of a 2x2 matrix?")
  = [py "What is the determinant of a 2x2 matrix?"; py "Explain the rank-nullity theorem"].
Proof. vm_compute. reflexivity. Qed.

(** ** Properties of the string functions *)

Lemma startswith_prefix p s : startswith p s = true ↔ p `prefix_of` s.
Proof.
  revert s. induction p as [|a p IH]; intros [|c s]; simpl.
  - split; [intros _; apply prefix_nil | done].
  - split; [intros _; apply prefix_nil | done].
  - split; [done | intros [k Hk]; discriminate].
  - rewrite andb_true_iff, bool_decide_eq_true, IH. split.
    + intros [-> H]. by apply prefix_cons.
    + intros [k Hk]. injection Hk as -> ->. split; [done | by exists k].
Qed.

Lemma str_in_occurs x s : str_in x s = true ↔ occurs_in x s.
Proof.
  induction s as [|c s IH]; simpl.
  - rewrite orb_false_r, startswith_prefix. split.
    + intros [k ->]. by exists [], k.
    + intros (a & b & H). destruct a; [by exists b | discriminate].
  - rewrite orb_true_iff, startswith_prefix, IH. split.
    + intros [[k ->] | (a & b & ->)]; [by exists [], k | by exists (c :: a), b].
    + intros (a & b & H). destruct a as [|c' a]; simpl in H.
      * left. by exists b.
      * right. injection H as -> ->. by exists a, b.
Qed.

Lemma occurs_in_refl x : occurs_in x x.
Proof. exists [], []. by rewrite app_nil_r. Qed.

Lemma occurs_in_trans x y z : occurs_in x y → occurs_in y z → occurs_in x z.
Proof.
  intros (a & b & ->) (a' & b' & ->). exists (a' ++ a), (b ++ b').
  by rewrite <- !app_assoc.
Qed.

Lemma occurs_in_app_l x s t : occurs_in x s → occurs_in x (s ++ t).
Proof. intros (a & b & ->). exists a, (b ++ t). by rewrite <- !app_assoc. Qed.

Lemma occurs_in_app_r x s t : occurs_in x s → occurs_in x (t ++ s).
Proof. intros (a & b & ->). exists (t ++ a), b. by rewrite <- !app_assoc. Qed.

Lemma occurs_in_lower x s : occurs_in x s → occurs_in (lower x) (lower s).
Proof.
  intros (a & b & ->). exists (lower a), (lower b). unfold lower.
  by rewrite !map_app.
Qed.

Lemma lower_app s t : lower (s ++ t) = lower s ++ lower t.
Proof. apply map_app. Qed.

Lemma isspace_lower_char c : isspace (lower_char c) = isspace c.
Proof. by destruct c as [[] [] [] [] [] [] [] []]. Qed.

Lemma any_true {A} (f : A → bool) xs : any f xs = true ↔ ∃ x, x ∈ xs ∧ f x = true.
Proof.
  unfold any. rewrite existsb_exists. split; intros (x & H & Hx); exists x.
  - by rewrite list_elem_of_In.
  - by rewrite <- list_elem_of_In.
Qed.

(** *** Fields and tokens *)

Lemma fields_not_nil sep s : fields sep s ≠ [].
Proof. destruct s as [|c s]; simpl; [done|]. destruct (sep c); [done|]. by destruct (fields sep s). Qed.

Lemma push_app c fs gs : fs ≠ [] → push c (fs ++ gs) = push c fs ++ gs.
Proof. by destruct fs. Qed.

Lemma fields_app_sep sep a c b :
  sep c = true → fields sep (a ++ c :: b) = fields sep a ++ fields sep b.
Proof.
  intros Hc. induction a as [|x a IH]; simpl.
  - by rewrite Hc.
  - rewrite IH. destruct (sep x); [done|]. apply push_app, fields_not_nil.
Qed.

Lemma split_app_space a c b :
  isspace c = true → split (a ++ c :: b) = split a ++ split b.
Proof. intros Hc. unfold split. by rewrite fields_app_sep, filter_app. Qed.

Lemma fields_head sep s : ∃ f fs k, fields sep s = f :: fs ∧ s = f ++ k.
Proof.
  induction s as [|c s (f & fs & k & E & Hs)]; simpl.
  - by exists [], [], [].
  - destruct (sep c).
    + by exists [], (fields sep s), (c :: s).
    + rewrite E. simpl. exists (c :: f), fs, k. by rewrite Hs at 1.
Qed.

(** Every field is a substring of the string it was cut from. *)
Lemma fields_occurs sep s w : w ∈ fields sep s → occurs_in w s.
Proof.
  revert w. induction s as [|c s IH]; simpl; intros w.
  - intros ->%list_elem_of_singleton. apply occurs_in_refl.
  - destruct (sep c).
    + intros [->|H]%elem_of_cons; [by exists [], (c :: s)|].
      apply (occurs_in_app_r _ _ [c]), IH, H.
    + destruct (fields_head sep s) as (f & fs & k & E & Hs). rewrite E in *. simpl.
      intros [->|H]%elem_of_cons.
      * exists [], k. simpl. by rewrite Hs at 1.
      * apply (occurs_in_app_r _ _ [c]), IH. apply elem_of_cons. by right.
Qed.

Lemma split_occurs s w : w ∈ split s → occurs_in w s.
Proof. unfold split. intros [_ H]%list_elem_of_filter. by apply fields_occurs in H. Qed.

(** A string without separators that begins [s] begins its first field. *)
Lemma fields_head_prefix sep x s :
  Forall (λ c, sep c = false) x → x `prefix_of` s →
  ∃ f fs, fields sep s = f :: fs ∧ x `prefix_of` f.
Proof.
  revert s. induction x as [|a x IH]; intros s Hx Hp.
  - destruct (fields_head sep s) as (f & fs & k & E & _). exists f, fs.
    split; [done | apply prefix_nil].
  - destruct Hp as [k ->]. inversion_clear Hx as [|?? Ha Hx']. simpl. rewrite Ha.
    destruct (IH (x ++ k) Hx') as (f & fs & E & Hf); [by exists k|].
    rewrite E. simpl. exists (a :: f), fs. split; [done | by apply prefix_cons].
Qed.

(** A non-empty substring without separators lies inside one field. *)
Lemma occurs_in_field sep x s :
  x ≠ [] → Forall (λ c, sep c = false) x → occurs_in x s →
  ∃ w, w ∈ fields sep s ∧ occurs_in x w.
Proof.
  intros Hne Hx. induction s as [|c s IH]; intros (a & b & H).
  - destruct a, x; done.
  - destruct a as [|c' a]; simpl in H.
    + destruct (fields_head_prefix sep x (c :: s) Hx) as (f & fs & E & [k ->]);
        [by exists b|].
      exists (x ++ k). rewrite E. split; [apply elem_of_cons; by left | by exists [], k].
    + injection H as <- ->. destruct IH as (w & Hw & Hxw); [by exists a, b|].
      simpl. destruct (sep c).
      * exists w. split; [apply elem_of_cons; by right | done].
      * destruct (fields sep (a ++ x ++ b)) as [|f fs]; [by apply elem_of_nil in Hw|].
        simpl. apply elem_of_cons in Hw as [->|Hw].
        -- exists (c :: f). split; [apply elem_of_cons; by left|].
           by apply (occurs_in_app_r _ _ [c]).
        -- exists w. split; [apply elem_of_cons; by right | done].
Qed.

Lemma occurs_in_split x s :
  x ≠ [] → Forall (λ c, isspace c = false) x → occurs_in x s →
  ∃ w, w ∈ split s ∧ occurs_in x w.
Proof.
  intros Hne Hx H. destruct (occurs_in_field isspace x s Hne Hx H) as (w & Hw & Hxw).
  exists w. split; [|done]. unfold split. apply list_elem_of_filter. split; [|done].
  destruct w; [|done]. destruct Hxw as (a & b & Hab). by destruct a, x.
Qed.

(** ** The topic filter *)

Lemma keeps_rules topic q :
  keeps topic (split (lower topic)) q = true ↔ token_rule topic q ∨ algebra_rule topic q.
Proof.
  unfold keeps, token_rule, algebra_rule.
  rewrite orb_true_iff, andb_true_iff, !any_true, str_in_occurs.
  by setoid_rewrite str_in_occurs.
Qed.

Lemma filter_step_elem topic tw acc q x :
  x ∈ filter_step topic tw acc q ↔ x ∈ acc ∨ (x = q ∧ keeps topic tw q = true).
Proof.
  unfold filter_step, keeps.
  destruct (any _ tw); destruct (_ && _); simpl.
  - rewrite bool_decide_eq_true_2 by (apply elem_of_app; right; by apply list_elem_of_singleton).
    rewrite elem_of_app, list_elem_of_singleton. tauto.
  - rewrite elem_of_app, list_elem_of_singleton. tauto.
  - destruct (bool_decide_reflect (q ∈ acc)) as [Hq|Hq].
    + split; [tauto|]. intros [?|[-> _]]; done.
    + rewrite elem_of_app, list_elem_of_singleton. tauto.
  - split; [tauto|]. intros [?|[_ ?]]; done.
Qed.

Lemma foldl_filter_step_elem topic tw qs acc x :
  x ∈ foldl (filter_step topic tw) acc qs
  ↔ x ∈ acc ∨ (x ∈ qs ∧ keeps topic tw x = true).
Proof.
  revert acc. induction qs as [|q qs IH]; intros acc; simpl.
  - rewrite elem_of_nil. tauto.
  - rewrite IH, filter_step_elem, elem_of_cons. split.
    + intros [[?|[-> ?]]|[? ?]]; auto.
    + intros [?|[[->|?] ?]]; auto.
Qed.

Lemma filter_by_topic_elem questions topic q :
  topic ≠ [] →
  q ∈ _filter_by_topic questions topic
  ↔ q ∈ questions ∧ keeps topic (split (lower topic)) q = true.
Proof.
  intros Ht. destruct topic as [|c topic]; [done|]. unfold _filter_by_topic.
  rewrite foldl_filter_step_elem, elem_of_nil. tauto.
Qed.

Lemma filter_by_topic_subseteq questions topic q :
  q ∈ _filter_by_topic questions topic → q ∈ questions.
Proof.
  destruct topic as [|c topic]; [done|]. by intros [? _]%filter_by_topic_elem.
Qed.

(** On a list without repetitions the loop is a plain filter. *)
Lemma filter_step_fresh topic tw acc q :
  q ∉ acc →
  filter_step topic tw acc q = if keeps topic tw q then acc ++ [q] else acc.
Proof.
  intros Hq. unfold filter_step, keeps.
  destruct (any _ tw); destruct (_ && _); simpl; try done.
  - rewrite bool_decide_eq_true_2; [done|]. rewrite elem_of_app, list_elem_of_singleton. auto.
  - by rewrite bool_decide_eq_false_2.
Qed.

Lemma foldl_filter_step_NoDup topic tw qs acc :
  NoDup qs → (∀ q, q ∈ qs → q ∉ acc) →
  foldl (filter_step topic tw) acc qs
  = acc ++ filter (λ q, keeps topic tw q = true) qs.
Proof.
  revert acc. induction qs as [|q qs IH]; intros acc Hnd Hacc; simpl.
  - by rewrite app_nil_r.
  - inversion_clear Hnd as [|?? Hq Hnd'].
    rewrite filter_step_fresh by (apply Hacc, elem_of_cons; by left).
    rewrite filter_cons. destruct (keeps topic tw q) eqn:E.
    + rewrite decide_True by done. rewrite IH; [by rewrite <- app_assoc | done |].
      intros x Hx [Hx'| ->%list_elem_of_singleton]%elem_of_app; [|done].
      eapply Hacc; [apply elem_of_cons; by right | done].
    + rewrite decide_False by done. apply IH; [done|].
      intros x Hx. apply Hacc, elem_of_cons. by right.
Qed.

Lemma filter_by_topic_NoDup questions c topic :
  NoDup questions →
  _filter_by_topic questions (c :: topic)
  = filter (λ q, keeps (c :: topic) (split (lower (c :: topic))) q = true) questions.
Proof.
  intros Hnd. unfold _filter_by_topic.
  rewrite foldl_filter_step_NoDup; [done | done |]. intros q _. apply not_elem_of_nil.
Qed.

(** C1: for a non-empty topic a question is retained exactly when it is one
    of the input questions and (a) some whitespace-split token of the
    lowercased topic occurs in the lowercased question or (b) the lowercased
    topic contains "algebra" and the lowercased question one of "matrix",
    "vector", "equation", "system".  In particular a question containing
    "matrix" is retained for every topic containing "algebra", whether or not
    a topic token occurs in it. *)
Theorem filter_by_topic_retains (questions : list str) (topic : str) :
  topic ≠ [] →
  (∀ q, q ∈ _filter_by_topic questions topic
        ↔ q ∈ questions ∧ (token_rule topic q ∨ algebra_rule topic q))
  ∧ (∀ q, q ∈ questions →
          occurs_in (py "algebra") (lower topic) →
          occurs_in (py "matrix") q ∨ occurs_in (py "matrix") (lower q) →
          q ∈ _filter_by_topic questions topic).
Proof.
  intros Ht.
  assert (Hiff : ∀ q, q ∈ _filter_by_topic questions topic
                      ↔ q ∈ questions ∧ (token_rule topic q ∨ algebra_rule topic q)).
  { intros q. by rewrite filter_by_topic_elem, keeps_rules. }
  split; [done|]. intros q Hq Halg Hm. apply Hiff. split; [done|]. right.
  split; [done|]. exists (py "matrix"). split.
  - apply elem_of_cons. by left.
  - destruct Hm as [Hm|Hm]; [|done]. by apply occurs_in_lower in Hm.
Qed.

Lemma filter_by_topic_retains_witness :
  py "matrix rank" ∈ _filter_by_topic [py "matrix rank"] (py "algebra").
Proof.
  refine (proj2 (filter_by_topic_retains [py "matrix rank"] (py "algebra") _) _ _ _ _).
  - done.
  - apply elem_of_cons. by left.
  - apply str_in_occurs. by vm_compute.
  - left. apply str_in_occurs. by vm_compute.
Defined.

(** C10: for the empty topic the filter returns its input unchanged. *)
Theorem filter_by_topic_empty (questions : list str) :
  _filter_by_topic questions [] = questions.
Proof. reflexivity. Qed.

(** The topic filter only grows when the topic gains tokens, as long as the
    topic it starts from is not the empty string. *)
Lemma filter_by_topic_mono questions topic topic' q :
  topic ≠ [] →
  (∀ w, w ∈ split (lower topic) → w ∈ split (lower topic')) →
  q ∈ _filter_by_topic questions topic → q ∈ _filter_by_topic questions topic'.
Proof.
  intros Ht Hsub Hq. destruct topic' as [|c' topic'].
  - by apply filter_by_topic_subseteq in Hq.
  - apply filter_by_topic_elem in Hq as [Hin Hk]; [|done].
    apply filter_by_topic_elem; [done|]. split; [done|].
    apply keeps_rules. apply keeps_rules in Hk as [(w & Hw & Hwq) | [Halg Hterm]].
    + left. exists w. auto.
    + right. split; [|done].
      destruct (occurs_in_split (py "algebra") (lower topic)) as (w & Hw & Haw);
        [done | by repeat constructor | done |].
      eapply occurs_in_trans; [done|]. by apply split_occurs, Hsub.
Qed.

Lemma split_lower_extend_r topic sp token w :
  isspace sp = true →
  w ∈ split (lower topic) → w ∈ split (lower (topic ++ sp :: token)).
Proof.
  intros Hsp Hw. rewrite lower_app. simpl.
  rewrite split_app_space by by rewrite isspace_lower_char.
  apply elem_of_app. by left.
Qed.

Lemma split_lower_extend_l topic sp token w :
  isspace sp = true →
  w ∈ split (lower topic) → w ∈ split (lower (token ++ sp :: topic)).
Proof.
  intros Hsp Hw. rewrite lower_app. simpl.
  rewrite split_app_space by by rewrite isspace_lower_char.
  apply elem_of_app. by right.
Qed.

(** C6, as stated, fails at the empty topic: the empty topic retains every
    question, and the topic extended by the token "matrix" (which occurs in
    the first question) drops the second one. *)
Lemma filter_by_topic_mono_empty_topic_fails :
  py "Define a group."
    ∈ _filter_by_topic [py "What is a matrix?"; py "Define a group."] []
  ∧ (py "Define a group."
       ∉ _filter_by_topic [py "What is a matrix?"; py "Define a group."]
                         ([] ++ py " " ++ py "matrix"))
  ∧ (py "Define a group."
       ∉ _filter_by_topic [py "What is a matrix?"; py "Define a group."] (py "matrix")).
Proof.
  split; [|split].
  - apply elem_of_cons. right. apply elem_of_cons. by left.
  - vm_compute. intros [H|H%elem_of_nil]%elem_of_cons; [discriminate | done].
  - vm_compute. intros [H|H%elem_of_nil]%elem_of_cons; [discriminate | done].
Qed.

(** C6 (amended): for a non-empty topic, every question the filter retains
    is still retained when a further token is added to the topic, after or
    before it and separated by a whitespace character; more generally
    whenever every token of the topic is a token of the new topic. *)
Theorem filter_by_topic_monotonic (questions : list str) (topic : str) (q : str) :
  topic ≠ [] →
  q ∈ _filter_by_topic questions topic →
  (∀ sp token, isspace sp = true →
      q ∈ _filter_by_topic questions (topic ++ sp :: token)
      ∧ q ∈ _filter_by_topic questions (token ++ sp :: topic))
  ∧ (∀ topic', (∀ w, w ∈ split (lower topic) → w ∈ split (lower topic')) →
      q ∈ _filter_by_topic questions topic').
Proof.
  intros Ht Hq. split.
  - intros sp token Hsp. split.
    + eapply filter_by_topic_mono; [done | | done].
      intros w. by apply split_lower_extend_r.
    + eapply filter_by_topic_mono; [done | | done].
      intros w. by apply split_lower_extend_l.
  - intros topic' Hsub. by eapply filter_by_topic_mono.
Qed.

Lemma filter_by_topic_monotonic_witness :
  py "Find the rank of A" ∈ _filter_by_topic [py "Find the rank of A"] (py "rank" ++ (" "%char :: py "trace")).
Proof.
  refine (proj1 (proj1 (filter_by_topic_monotonic
            [py "Find the rank of A"] (py "rank") (py "Find the rank of A") _ _)
            " "%char (py "trace") _)).
  - done.
  - vm_compute. apply elem_of_cons. by left.
  - reflexivity.
Defined.

(** ** Removing duplicates (the second loop of [_extract_questions_basic]) *)

Lemma dedup_seen l :
  ∀ x, x ∈ (foldl dedup_step (∅, []) l).1 ↔ x ∈ l.
Proof.
  induction l as [|q l IH] using rev_ind; intros x; simpl.
  - by rewrite elem_of_empty, elem_of_nil.
  - rewrite foldl_snoc. destruct (foldl dedup_step (∅, []) l) as [seen unique] eqn:E.
    simpl in *. rewrite elem_of_app, list_elem_of_singleton, <- IH.
    case_bool_decide as Hq; simpl.
    + split; [tauto|]. intros [?| ->]; done.
    + rewrite elem_of_union, elem_of_singleton. tauto.
Qed.

Lemma remove_duplicates_snoc l q :
  remove_duplicates (l ++ [q])
  = if decide (q ∈ l) then remove_duplicates l else remove_duplicates l ++ [q].
Proof.
  unfold remove_duplicates. rewrite foldl_snoc.
  pose proof (dedup_seen l q) as Hs.
  destruct (foldl dedup_step (∅, []) l) as [seen unique]. simpl in *.
  case_bool_decide as Hq; case_decide as Hq'; try done; tauto.
Qed.

Lemma remove_duplicates_elem l x : x ∈ remove_duplicates l ↔ x ∈ l.
Proof.
  induction l as [|q l IH] using rev_ind.
  - done.
  - rewrite remove_duplicates_snoc, elem_of_app, list_elem_of_singleton.
    case_decide as Hq; [|rewrite elem_of_app, list_elem_of_singleton]; rewrite IH.
    + split; [tauto|]. intros [?| ->]; done.
    + done.
Qed.

Lemma remove_duplicates_NoDup l : NoDup (remove_duplicates l).
Proof.
  induction l as [|q l IH] using rev_ind.
  - constructor.
  - rewrite remove_duplicates_snoc. case_decide as Hq; [done|].
    apply NoDup_app. split; [done|]. split; [|apply NoDup_singleton].
    intros x Hx ->%list_elem_of_singleton. apply Hq. by apply remove_duplicates_elem.
Qed.

Lemma first_occurrence_snoc l q i x :
  first_occurrence (l ++ [q]) i x
  ↔ first_occurrence l i x ∨ (i = length l ∧ x = q ∧ q ∉ l).
Proof.
  unfold first_occurrence. destruct (decide (i < length l)) as [Hi|Hi].
  - rewrite lookup_app_l, take_app_le by lia. split; [tauto|].
    intros [?|[-> _]]; [done | lia].
  - rewrite lookup_app_r, take_app_ge by lia.
    rewrite (lookup_ge_None_2 l i), (take_ge l i) by lia.
    destruct (i - length l) as [|n] eqn:E; simpl.
    + rewrite app_nil_r. split.
      * intros [[= ->] ?]. right. split; [lia | done].
      * intros [[? _]|(_ & -> & ?)]; done.
    + split; [by intros [? _]|]. intros [[? _]|[-> _]]; [done | lia].
Qed.

(** The result of the pass is the input read at the positions of first
    occurrences, in increasing order of position. *)
Lemma remove_duplicates_positions l :
  ∃ idx : list nat,
    StronglySorted lt idx
    ∧ Forall (λ i, i < length l) idx
    ∧ (∀ i, i ∈ idx ↔ ∃ x, first_occurrence l i x)
    ∧ Forall2 (first_occurrence l) idx (remove_duplicates l).
Proof.
  induction l as [|q l (idx & Hs & Hlt & Hidx & Hrd)] using rev_ind.
  - exists []. repeat split; try constructor.
    + by intros ?%elem_of_nil.
    + by intros (x & [=] & _).
  - rewrite remove_duplicates_snoc. case_decide as Hq.
    + exists idx. split; [done|]. split; [|split].
      * eapply Forall_impl; [done|]. intros i ?. rewrite length_app. simpl in *. lia.
      * intros i. rewrite Hidx. setoid_rewrite first_occurrence_snoc.
        split; [intros (x & ?); eauto | intros (x & [?|(_ & _ & ?)]); [eauto | done]].
      * eapply Forall2_impl; [done|]. intros i x ?. apply first_occurrence_snoc. by left.
    + exists (idx ++ [length l]). split; [|split; [|split]].
      * clear -Hs Hlt. induction Hs as [|i idx Hs IH Hall]; simpl.
        -- repeat constructor.
        -- inversion_clear Hlt as [|?? Hi Hlt']. constructor; [by apply IH|].
           apply Forall_app. split; [done | by repeat constructor].
      * apply Forall_app. rewrite length_app. simpl. split.
        -- eapply Forall_impl; [done|]. intros i ?. simpl in *. lia.
        -- repeat constructor. lia.
      * intros i. rewrite elem_of_app, list_elem_of_singleton, Hidx.
        setoid_rewrite first_occurrence_snoc. split.
        -- intros [(x & ?)| ->]; [eauto | exists q; auto].
        -- intros (x & [?|(-> & _)]); eauto.
      * apply Forall2_app.
        -- eapply Forall2_impl; [done|]. intros i x ?. apply first_occurrence_snoc. by left.
        -- constructor; [|constructor]. apply first_occurrence_snoc. by right.
Qed.

(** C2: the deduplication pass returns exactly the distinct strings of its
    input, none of them twice, each read at the position of its first
    occurrence, in increasing order of these positions. *)
Theorem remove_duplicates_first_occurrences (questions : list str) :
  NoDup (remove_duplicates questions)
  ∧ (∀ q, q ∈ remove_duplicates questions ↔ q ∈ questions)
  ∧ ∃ idx : list nat,
      StronglySorted lt idx
      ∧ (∀ i, i ∈ idx ↔ ∃ q, first_occurrence questions i q)
      ∧ Forall2 (first_occurrence questions) idx (remove_duplicates questions).
Proof.
  split; [apply remove_duplicates_NoDup|]. split; [apply remove_duplicates_elem|].
  destruct (remove_duplicates_positions questions) as (idx & ? & _ & ? & ?).
  by exists idx.
Qed.

(** ** What a pattern matches *)

Lemma prev_after_nil prev : prev_after prev [] = prev.
Proof. done. Qed.

Lemma prev_after_cons prev c p : prev_after prev (c :: p) = prev_after (Some c) p.
Proof.
  unfold prev_after. destruct p as [|d p]; [done|].
  change (last (c :: d :: p)) with (last (d :: p)).
  by destruct (last_is_Some (d :: p)) as [_ [x ->]].
Qed.

Lemma prev_after_app prev p q : prev_after prev (p ++ q) = prev_after (prev_after prev p) q.
Proof.
  revert prev. induction p as [|c p IH]; intros prev; simpl; [done|].
  by rewrite !prev_after_cons, IH.
Qed.

Lemma prev_after_is_Some prev p : p ≠ [] → is_Some (prev_after prev p).
Proof.
  intros Hp. unfold prev_after. destruct (last_is_Some p) as [_ [x ->]]; [done | by eexists].
Qed.

Lemma or_else_Some m other x :
  or_else m other = Some x → m = Some x ∨ (m = None ∧ other = Some x).
Proof. destruct m; simpl; auto. Qed.

Section matching.
Context (f : flags).

Lemma greedy_sound a k prev s m :
  greedy f a k prev s = Some m →
  ∃ p1 s2, s = p1 ++ s2 ∧ Forall (λ c, in_cls f a c = true) p1
           ∧ k (prev_after prev p1) s2 = Some m.
Proof.
  revert prev. induction s as [|c s IH]; intros prev; simpl.
  - intros H. by exists [], [].
  - destruct (in_cls f a c) eqn:Hc; [|intros H; by exists [], (c :: s)].
    intros [H|[_ H]]%or_else_Some; [|by exists [], (c :: s)].
    destruct (IH _ H) as (p1 & s2 & -> & Hp1 & Hk).
    exists (c :: p1), s2. rewrite prev_after_cons. by repeat constructor.
Qed.

(** A successful match splits the text into a matched part, which the
    pattern denotes, and the rest. *)
Lemma match_here_sound r prev s prev' rest :
  match_here f r prev s = Some (prev', rest) →
  ∃ p, s = p ++ rest ∧ prev' = prev_after prev p ∧ denotes f r prev p rest.
Proof.
  revert prev s. induction r as [|i r IH]; intros prev s; simpl.
  - intros [= -> ->]. by exists [].
  - destruct i as [| |a|a|a|a].
    + destruct (at_bol f prev) eqn:Hb; [|done]. intros (p & -> & -> & Hd)%IH. by exists p.
    + destruct (at_eol f s) eqn:He; [|done]. intros (p & -> & -> & Hd)%IH. by exists p.
    + destruct s as [|c s]; [done|]. destruct (in_cls f a c) eqn:Hc; [|done].
      intros (p & -> & -> & Hd)%IH. exists (c :: p). rewrite prev_after_cons.
      split; [done|]. split; [done|]. by exists c, p.
    + intros (p1 & s2 & -> & Hp1 & (p & -> & -> & Hd)%IH)%greedy_sound.
      exists (p1 ++ p). rewrite prev_after_app.
      split; [by rewrite app_assoc|]. split; [done|]. by exists p1, p.
    + destruct s as [|c s]; [done|]. destruct (in_cls f a c) eqn:Hc; [|done].
      intros (p1 & s2 & -> & Hp1 & (p & -> & -> & Hd)%IH)%greedy_sound.
      exists (c :: p1 ++ p). rewrite prev_after_cons, prev_after_app.
      split; [simpl; by rewrite app_assoc|]. split; [done|]. exists (c :: p1), p.
      rewrite prev_after_cons. by repeat constructor.
    + assert (Hskip : match_here f r prev s = Some (prev', rest) →
                ∃ p, s = p ++ rest ∧ prev' = prev_after prev p
                     ∧ (denotes f r prev p rest
                        ∨ ∃ c p', p = c :: p' ∧ in_cls f a c = true
                                  ∧ denotes f r (Some c) p' rest)).
      { intros (p & -> & -> & Hd)%IH. exists p. auto. }
      destruct s as [|c s]; [done|]. destruct (in_cls f a c) eqn:Hc; [|done].
      intros [H|[_ H]]%or_else_Some; [|auto].
      apply IH in H as (p & -> & -> & Hd). exists (c :: p). rewrite prev_after_cons.
      split; [done|]. split; [done|]. right. by exists c, p.
Qed.

Lemma denotes_min_length r prev p after :
  denotes f r prev p after → min_length r ≤ length p.
Proof.
  revert prev p. induction r as [|i r IH]; intros prev p; simpl; [lia|].
  destruct i as [| |a|a|a|a].
  - intros [_ H]. eauto.
  - intros [_ H]. eauto.
  - intros (c & p' & -> & _ & H%IH). simpl. lia.
  - intros (p1 & p2 & -> & _ & H%IH). rewrite length_app. lia.
  - intros (p1 & p2 & -> & Hne & _ & H%IH). rewrite length_app.
    destruct p1; [done|]. simpl. lia.
  - intros [H%IH | (c & p' & -> & _ & H%IH)]; simpl; lia.
Qed.

(** *** Substitution with an anchored pattern, without MULTILINE *)

Section anchored.
Hypothesis single_line : MULTILINE f = false.

Lemma sub_loop_anchored_later fuel r repl c s :
  sub_loop fuel f (Bol :: r) repl (Some c) s = s.
Proof.
  revert c s. induction fuel as [|fuel IH]; intros c s; [done|].
  simpl. rewrite single_line. simpl. destruct s as [|d s]; [done|]. by rewrite IH.
Qed.

(** With a pattern that starts with [^], [re.sub] replaces at most the match
    at the start of the string. *)
Lemma re_sub_anchored r repl s :
  re_sub (Bol :: r) repl s f
  = match match_here f (Bol :: r) None s with
    | Some (_, rest) => repl ++ rest
    | None => s
    end.
Proof.
  unfold re_sub.
  assert (Hcopy : match s with
                  | c :: s' => c :: sub_loop (length s) f (Bol :: r) repl (Some c) s'
                  | [] => []
                  end = s).
  { destruct s as [|c s]; [done|]. by rewrite sub_loop_anchored_later. }
  change (sub_loop (S (length s)) f (Bol :: r) repl None s)
    with (match match_here f (Bol :: r) None s with
          | Some (prev', rest) =>
              if bool_decide (length rest < length s)
              then repl ++ sub_loop (length s) f (Bol :: r) repl prev' rest
              else repl ++ match s with
                           | c :: s' => c :: sub_loop (length s) f (Bol :: r) repl (Some c) s'
                           | [] => []
                           end
          | None => match s with
                    | c :: s' => c :: sub_loop (length s) f (Bol :: r) repl (Some c) s'
                    | [] => []
                    end
          end).
  rewrite Hcopy.
  destruct (match_here f (Bol :: r) None s) as [[prev' rest]|] eqn:E; [|done].
  apply match_here_sound in E as (p & -> & -> & _).
  case_bool_decide as Hlen.
  - destruct (prev_after_is_Some None p) as [c ->].
    + intros ->. simpl in Hlen. lia.
    + by rewrite sub_loop_anchored_later.
  - rewrite length_app in Hlen. destruct p; [done | simpl in Hlen; lia].
Qed.

End anchored.
End matching.

(** ** Normalization strips prefixes *)

(** Case analysis on a member of [prefixes]. *)
Ltac case_prefixes H :=
  unfold prefixes in H; rewrite !elem_of_cons, elem_of_nil in H;
  destruct H as [->|[->|[->|[->|[]]]]].

(** The four substitutions of [_clean_question], one after the other. *)
Lemma clean_question_unfold question :
  _clean_question question
  = strip (re_sub q_prefix []
            (re_sub question_prefix []
              (re_sub lettered_prefix []
                (re_sub numeric_prefix [] (collapse question) re_I) re_I) re_I) re_I).
Proof. reflexivity. Qed.

Lemma re_sub_removed r w :
  0 < min_length r →
  ∃ p, w = p ++ re_sub (Bol :: r) [] w re_I
       ∧ removed (Bol :: r) p (re_sub (Bol :: r) [] w re_I).
Proof.
  intros Hmin. rewrite re_sub_anchored by done. unfold removed.
  destruct (match_here re_I (Bol :: r) None w) as [[prev' rest]|] eqn:E.
  - pose proof E as (p & Hw & _ & Hd)%match_here_sound. exists p.
    change ([] ++ rest) with rest. split; [done|]. right. split; [|split; [|done]].
    + intros ->. apply denotes_min_length in Hd. simpl in Hd. lia.
    + unfold re_match. by rewrite <- Hw, E.
  - exists []. split; [done|]. left. unfold re_match. by rewrite E.
Qed.

(** C3, as stated, fails: on the matched line "1. A) What is the rank of M?"
    normalization strips the numeric prefix and then the lettered prefix
    that follows it, not the numeric prefix alone. *)
Lemma clean_question_strips_two_prefixes :
  any (fun pattern => re_match pattern (py "1. A) What is the rank of M?") re_MI) patterns = true
  ∧ re_match numeric_prefix (py "1. A) What is the rank of M?") re_I = true
  ∧ re_sub numeric_prefix [] (py "1. A) What is the rank of M?") re_I
    = py "A) What is the rank of M?"
  ∧ re_match lettered_prefix (py "A) What is the rank of M?") re_I = true
  ∧ _clean_question (py "1. A) What is the rank of M?") = py "What is the rank of M?"
  ∧ _clean_question (py "1. A) What is the rank of M?") ≠ py "A) What is the rank of M?".
Proof. by vm_compute. Qed.

(** C3 (amended): normalization collapses whitespace, then removes in the
    order numeric, lettered, "Question N", "QN" at most one prefix of each
    form, each from what the removals before it left, and trims; on a line
    that carries one of the four forms at least one prefix is removed. *)
Theorem clean_question_strips_prefixes (question : str) :
  carries_prefix (collapse question) →
  ∃ p1 p2 p3 p4 rest,
    collapse question = p1 ++ p2 ++ p3 ++ p4 ++ rest
    ∧ _clean_question question = strip rest
    ∧ removed numeric_prefix p1 (p2 ++ p3 ++ p4 ++ rest)
    ∧ removed lettered_prefix p2 (p3 ++ p4 ++ rest)
    ∧ removed question_prefix p3 (p4 ++ rest)
    ∧ removed q_prefix p4 rest
    ∧ p1 ++ p2 ++ p3 ++ p4 ≠ [].
Proof.
  intros (prefix & Hin & Hmatch). rewrite clean_question_unfold.
  destruct (re_sub_removed (tail numeric_prefix) (collapse question))
    as (p1 & E1 & H1); [simpl; lia|].
  change (Bol :: tail numeric_prefix) with numeric_prefix in *.
  set (w1 := re_sub numeric_prefix [] (collapse question) re_I) in *.
  destruct (re_sub_removed (tail lettered_prefix) w1) as (p2 & E2 & H2); [simpl; lia|].
  change (Bol :: tail lettered_prefix) with lettered_prefix in *.
  set (w2 := re_sub lettered_prefix [] w1 re_I) in *.
  destruct (re_sub_removed (tail question_prefix) w2) as (p3 & E3 & H3); [simpl; lia|].
  change (Bol :: tail question_prefix) with question_prefix in *.
  set (w3 := re_sub question_prefix [] w2 re_I) in *.
  destruct (re_sub_removed (tail q_prefix) w3) as (p4 & E4 & H4); [simpl; lia|].
  change (Bol :: tail q_prefix) with q_prefix in *.
  set (w4 := re_sub q_prefix [] w3 re_I) in *.
  exists p1, p2, p3, p4, w4.
  rewrite <- E4, <- E3, <- E2, <- E1. repeat (split; [done|]).
  intros Hnil.
  apply app_eq_nil in Hnil as [-> Hnil]. apply app_eq_nil in Hnil as [-> Hnil].
  apply app_eq_nil in Hnil as [-> ->]. simpl in *. subst w1 w2 w3.
  rewrite <- E1, <- E2, <- E3 in *.
  destruct H1 as [[_ H1]|[? _]]; [|done]. destruct H2 as [[_ H2]|[? _]]; [|done].
  destruct H3 as [[_ H3]|[? _]]; [|done]. destruct H4 as [[_ H4]|[? _]]; [|done].
  case_prefixes Hin; congruence.
Qed.

Lemma clean_question_strips_prefixes_witness :
  ∃ p1 p2 p3 p4 rest,
    collapse (py "Q3: Define a basis") = p1 ++ p2 ++ p3 ++ p4 ++ rest
    ∧ _clean_question (py "Q3: Define a basis") = strip rest
    ∧ removed numeric_prefix p1 (p2 ++ p3 ++ p4 ++ rest)
    ∧ removed lettered_prefix p2 (p3 ++ p4 ++ rest)
    ∧ removed question_prefix p3 (p4 ++ rest)
    ∧ removed q_prefix p4 rest
    ∧ p1 ++ p2 ++ p3 ++ p4 ≠ [].
Proof.
  apply (clean_question_strips_prefixes (py "Q3: Define a basis")).
  exists q_prefix. split; [|by vm_compute].
  unfold prefixes. rewrite !elem_of_cons. auto.
Defined.

(** ** Normalized strings *)

Lemma tidy_app_inv_r p s : tidy (p ++ s) → tidy s.
Proof. induction p as [|c p IH]; simpl; [done|]. intros [_ H]. auto. Qed.

Lemma tidy_app_inv_l s k : tidy (s ++ k) → tidy s.
Proof.
  induction s as [|c s IH]; simpl; [done|]. intros [Hc H]. split; [|auto].
  intros Hsp. destruct (Hc Hsp) as [-> Hs]. split; [done|]. by destruct s.
Qed.

Lemma lstrip_suffix s : ∃ p, s = p ++ lstrip s.
Proof.
  induction s as [|c s [p IH]]; simpl; [by exists []|].
  destruct (isspace c); [|by exists []]. exists (c :: p). simpl. by rewrite <- IH.
Qed.

Lemma lstrip_starts_clean s : starts_clean (lstrip s).
Proof. induction s as [|c s IH]; simpl; [done|]. by destruct (isspace c) eqn:E. Qed.

Lemma lstrip_id s : starts_clean s → lstrip s = s.
Proof. destruct s as [|c s]; simpl; [done|]. by intros ->. Qed.

Lemma rstrip_prefix s : ∃ k, s = rstrip s ++ k.
Proof.
  induction s as [|c s [k IH]]; simpl; [by exists []|].
  destruct (rstrip s) as [|d r].
  - destruct (isspace c); [by exists (c :: s) | by exists s].
  - exists k. simpl in *. by rewrite <- IH.
Qed.

Lemma rstrip_ends_clean s : ends_clean (rstrip s).
Proof.
  induction s as [|c s IH]; simpl; [done|]. destruct (rstrip s) as [|d r].
  - by destruct (isspace c) eqn:E.
  - done.
Qed.

Lemma rstrip_starts_clean s : starts_clean s → starts_clean (rstrip s).
Proof.
  destruct s as [|c s]; simpl; [done|]. intros Hc.
  destruct (rstrip s); [by rewrite Hc | done].
Qed.

Lemma rstrip_id s : ends_clean s → rstrip s = s.
Proof.
  induction s as [|c s IH]; [done|]. destruct s as [|d s].
  - simpl. by intros ->.
  - intros H. change (rstrip (c :: d :: s)) with
      (match rstrip (d :: s) with [] => if isspace c then [] else [c] | r => c :: r end).
    by rewrite IH.
Qed.

Lemma strip_tidy s : tidy s → tidy (strip s).
Proof.
  intros H. unfold strip. destruct (lstrip_suffix s) as [p Hp].
  destruct (rstrip_prefix (lstrip s)) as [k Hk].
  rewrite Hp in H. apply tidy_app_inv_r in H. rewrite Hk in H. by apply tidy_app_inv_l in H.
Qed.

Lemma strip_starts_clean s : starts_clean (strip s).
Proof. apply rstrip_starts_clean, lstrip_starts_clean. Qed.

Lemma strip_ends_clean s : ends_clean (strip s).
Proof. apply rstrip_ends_clean. Qed.

Lemma strip_id s : starts_clean s → ends_clean s → strip s = s.
Proof. intros H1 H2. unfold strip. by rewrite lstrip_id, rstrip_id. Qed.

(** *** Collapsing whitespace *)

Lemma fields_no_sep sep s :
  Forall (λ w, Forall (λ c, sep c = false) w) (fields sep s).
Proof.
  induction s as [|c s IH]; simpl; [by repeat constructor|].
  destruct (sep c) eqn:E; [by constructor|].
  destruct IH as [|f fs Hf Hfs]; simpl; by repeat constructor.
Qed.

Lemma tidy_no_space w t :
  Forall (λ c, isspace c = false) w → tidy t → tidy (w ++ t).
Proof.
  induction 1 as [|c w Hc Hw IH]; simpl; [done|]. intros Ht. split; [|auto].
  by rewrite Hc.
Qed.

Lemma tidy_join ws :
  Forall (λ w, w ≠ [] ∧ Forall (λ c, isspace c = false) w) ws →
  tidy (join (py " ") ws) ∧ starts_clean (join (py " ") ws).
Proof.
  induction 1 as [|w ws [Hne Hw] Hws [IH1 IH2]]; [done|].
  destruct ws as [|w' ws].
  - simpl. split.
    + rewrite <- (app_nil_r w). by apply tidy_no_space.
    + destruct Hw; done.
  - change (join (py " ") (w :: w' :: ws)) with (w ++ py " " ++ join (py " ") (w' :: ws)).
    split.
    + apply tidy_no_space; [done|]. simpl. done.
    + destruct Hw; done.
Qed.

Lemma tidy_collapse s : tidy (collapse s).
Proof.
  apply tidy_join. unfold split. apply Forall_forall. intros w [Hne Hw]%list_elem_of_filter.
  split; [by destruct w|].
  pose proof (fields_no_sep isspace s) as H. rewrite Forall_forall in H. by apply H.
Qed.

Lemma join_fields x : tidy x → join (py " ") (fields isspace x) = x.
Proof.
  induction x as [|c x IH]; simpl; [done|]. intros [Hc Hx]. specialize (IH Hx).
  destruct (fields isspace x) as [|f fs] eqn:E; [by destruct (fields_not_nil isspace x)|].
  destruct (isspace c).
  - destruct Hc as [-> _]; [done|]. simpl in *. by rewrite IH.
  - simpl in *. destruct fs; by rewrite <- IH.
Qed.

Lemma fields_tidy_tail x :
  tidy x → ends_clean x → Forall (λ w, nonempty w = true) (tail (fields isspace x)).
Proof.
  induction x as [|c x IH]; [by constructor|]. intros [Hc Hx] He. destruct x as [|d x].
  - simpl in *. rewrite He. by constructor.
  - specialize (IH Hx He). remember (d :: x) as y eqn:Ey. simpl.
    destruct (isspace c).
    + simpl. destruct Hc as [_ Hd]; [done|]. subst y. simpl in *. rewrite Hd in *.
      destruct (fields isspace x) as [|f fs]; simpl in *; by constructor.
    + destruct (fields isspace y) as [|f fs] eqn:E; [by destruct (fields_not_nil isspace y)|].
      done.
Qed.

Lemma filter_all {A} (P : A → Prop) `{!∀ x, Decision (P x)} (l : list A) :
  Forall P l → filter P l = l.
Proof.
  induction 1 as [|x l Hx Hl IH]; [done|]. by rewrite filter_cons, decide_True, IH.
Qed.

(** A tidy string without whitespace at either end is left as it is. *)
Lemma collapse_id x : tidy x → starts_clean x → ends_clean x → collapse x = x.
Proof.
  intros Ht Hs He. destruct x as [|c x]; [done|].
  unfold collapse, split. rewrite filter_all; [by apply join_fields|].
  pose proof (fields_tidy_tail (c :: x) Ht He) as Htail.
  simpl in *. rewrite Hs in *.
  destruct (fields isspace x) as [|f fs]; simpl in *; by constructor.
Qed.

(** ** Normalization is idempotent once no prefix is left *)

Lemma re_sub_suffix r w : ∃ p, w = p ++ re_sub (Bol :: r) [] w re_I.
Proof.
  rewrite re_sub_anchored by done.
  destruct (match_here re_I (Bol :: r) None w) as [[prev' rest]|] eqn:E.
  - apply match_here_sound in E as (p & -> & _). by exists p.
  - by exists [].
Qed.

Lemma re_sub_no_match r w :
  re_match (Bol :: r) w re_I = false → re_sub (Bol :: r) [] w re_I = w.
Proof.
  intros H. rewrite re_sub_anchored by done. unfold re_match in H.
  by destruct (match_here re_I (Bol :: r) None w) as [[prev' rest]|].
Qed.

Lemma clean_question_normal s :
  tidy (_clean_question s) ∧ starts_clean (_clean_question s) ∧ ends_clean (_clean_question s).
Proof.
  split; [|split; [apply strip_starts_clean | apply strip_ends_clean]].
  rewrite clean_question_unfold. apply strip_tidy.
  pose proof (tidy_collapse s) as H.
  destruct (re_sub_suffix (tail numeric_prefix) (collapse s)) as [p1 E1].
  rewrite E1 in H. apply tidy_app_inv_r in H.
  destruct (re_sub_suffix (tail lettered_prefix)
              (re_sub (Bol :: tail numeric_prefix) [] (collapse s) re_I)) as [p2 E2].
  rewrite E2 in H. apply tidy_app_inv_r in H.
  destruct (re_sub_suffix (tail question_prefix)
              (re_sub (Bol :: tail lettered_prefix) []
                 (re_sub (Bol :: tail numeric_prefix) [] (collapse s) re_I) re_I)) as [p3 E3].
  rewrite E3 in H. apply tidy_app_inv_r in H.
  destruct (re_sub_suffix (tail q_prefix)
              (re_sub (Bol :: tail question_prefix) []
                 (re_sub (Bol :: tail lettered_prefix) []
                    (re_sub (Bol :: tail numeric_prefix) [] (collapse s) re_I) re_I) re_I))
    as [p4 E4].
  rewrite E4 in H. apply tidy_app_inv_r in H. exact H.
Qed.

(** C5: if the normalized form of [s] matches none of the four prefix
    patterns, normalizing it again returns it unchanged. *)
Theorem clean_question_idempotent (s : str) :
  (∀ prefix, prefix ∈ prefixes → re_match prefix (_clean_question s) re_I = false) →
  _clean_question (_clean_question s) = _clean_question s.
Proof.
  intros Hno. destruct (clean_question_normal s) as (Ht & Hs & He).
  set (r := _clean_question s) in *. rewrite clean_question_unfold.
  rewrite collapse_id by done.
  assert (Hsub : ∀ prefix, prefix ∈ prefixes → re_sub prefix [] r re_I = r).
  { intros prefix Hin. specialize (Hno prefix Hin). revert Hno.
    case_prefixes Hin; apply re_sub_no_match. }
  rewrite (Hsub numeric_prefix), (Hsub lettered_prefix),
    (Hsub question_prefix), (Hsub q_prefix);
    try (unfold prefixes; rewrite !elem_of_cons; tauto).
  by apply strip_id.
Qed.

Lemma clean_question_idempotent_witness :
  _clean_question (_clean_question (py "1.  What is   a basis of R^3?"))
  = _clean_question (py "1.  What is   a basis of R^3?").
Proof.
  apply (clean_question_idempotent (py "1.  What is   a basis of R^3?")).
  intros prefix Hin. case_prefixes Hin; by vm_compute.
Defined.

(** ** The extraction loop *)

Lemma nonempty_and_long (s : str) :
  nonempty s && bool_decide (15 < length s) = bool_decide (15 < length s).
Proof. destruct s; [|done]. symmetry. apply bool_decide_eq_false_2. simpl. lia. Qed.

Lemma try_patterns_spec ps line questions :
  try_patterns ps line questions
  = if any (fun pattern => re_match pattern line re_MI) ps
    then (if bool_decide (15 < length (_clean_question line))
          then questions ++ [_clean_question line] else questions)
    else questions.
Proof.
  induction ps as [|pattern ps IH]; simpl; [done|].
  destruct (re_match pattern line re_MI); simpl; [|done].
  by rewrite nonempty_and_long.
Qed.

Lemma line_step_spec questions line :
  line_step questions line = questions ++ candidate_of line.
Proof.
  unfold line_step, candidate_of, is_question. cbv zeta. rewrite try_patterns_spec.
  generalize (any (fun pattern => re_match pattern (strip line) re_MI) patterns).
  intros matched.
  destruct (bool_decide (length (strip line) < 10)), matched,
    (bool_decide (15 < length (_clean_question (strip line))));
    cbn [negb andb]; by rewrite ?app_nil_r.
Qed.

Lemma foldl_line_step lines questions :
  foldl line_step questions lines = questions ++ (lines ≫= candidate_of).
Proof.
  revert questions. induction lines as [|line lines IH]; intros questions; simpl.
  - by rewrite app_nil_r.
  - by rewrite IH, line_step_spec, <- app_assoc.
Qed.

Lemma strip_strip s : strip (strip s) = strip s.
Proof. apply strip_id; [apply strip_starts_clean | apply strip_ends_clean]. Qed.

Lemma is_question_strip line : is_question (strip line) = is_question line.
Proof. unfold is_question. by rewrite strip_strip. Qed.

Lemma candidates_elem text q :
  q ∈ candidates text
  ↔ ∃ line, line ∈ fields (fun c => bool_decide (c = newline)) text
            ∧ is_question (strip line) = true
            ∧ q = _clean_question (strip line)
            ∧ 15 < length q.
Proof.
  unfold candidates. rewrite foldl_line_step. simpl. rewrite list_elem_of_bind.
  unfold candidate_of. split.
  - intros (line & Hq & Hline). exists line. split; [done|].
    rewrite is_question_strip.
    destruct (is_question line); simpl in Hq; [|by apply elem_of_nil in Hq].
    case_bool_decide; [|by apply elem_of_nil in Hq].
    apply list_elem_of_singleton in Hq as ->. done.
  - intros (line & Hline & Hm & -> & Hlen). exists line. split; [|done].
    rewrite is_question_strip in Hm.
    rewrite Hm. simpl. rewrite bool_decide_eq_true_2 by done.
    by apply list_elem_of_singleton.
Qed.

(** C4: every question that the extraction of one document returns is the
    cleaned form of a matched line and is longer than 15 characters; no
    value is returned twice, and the values come in the order of their first
    occurrences among the candidates; a line whose cleaned form is empty or
    has 15 characters or fewer adds nothing.  The same holds after the topic
    filter, which keeps a sublist. *)
Theorem extract_questions_basic_invariant (text : str) :
  (∀ q, q ∈ _extract_questions_basic text
        ↔ ∃ line, line ∈ fields (fun c => bool_decide (c = newline)) text
                  ∧ is_question (strip line) = true
                  ∧ q = _clean_question (strip line)
                  ∧ 15 < length q)
  ∧ NoDup (_extract_questions_basic text)
  ∧ (∃ idx : list nat,
        StronglySorted lt idx
        ∧ (∀ i, i ∈ idx ↔ ∃ q, first_occurrence (candidates text) i q)
        ∧ Forall2 (first_occurrence (candidates text)) idx (_extract_questions_basic text))
  ∧ (∀ questions line,
        length (_clean_question (strip line)) ≤ 15 → line_step questions line = questions)
  ∧ (∀ topic,
        _filter_by_topic (_extract_questions_basic text) topic
          `sublist_of` _extract_questions_basic text
        ∧ NoDup (_filter_by_topic (_extract_questions_basic text) topic)
        ∧ ∀ q, q ∈ _filter_by_topic (_extract_questions_basic text) topic → 15 < length q).
Proof.
  assert (Hmem : ∀ q, q ∈ _extract_questions_basic text
        ↔ ∃ line, line ∈ fields (fun c => bool_decide (c = newline)) text
                  ∧ is_question (strip line) = true
                  ∧ q = _clean_question (strip line)
                  ∧ 15 < length q).
  { intros q. unfold _extract_questions_basic.
    by rewrite remove_duplicates_elem, candidates_elem. }
  pose proof (remove_duplicates_NoDup (candidates text)) as Hnd.
  split; [done|]. split; [done|]. split; [|split].
  - destruct (remove_duplicates_positions (candidates text)) as (idx & ? & _ & ? & ?).
    by exists idx.
  - intros questions line Hlen. rewrite line_step_spec. unfold candidate_of.
    rewrite (bool_decide_eq_false_2 (15 < _)) by lia.
    by rewrite andb_false_r, app_nil_r.
  - intros topic.
    assert (Hsub : _filter_by_topic (_extract_questions_basic text) topic
                     `sublist_of` _extract_questions_basic text).
    { destruct topic as [|c topic]; [done|].
      rewrite filter_by_topic_NoDup by done. apply sublist_filter. }
    split; [done|]. split; [by eapply sublist_NoDup|].
    intros q Hq. eapply elem_of_sublist in Hq; [|done].
    by apply Hmem in Hq as (line & _ & _ & _ & ?).
Qed.

(** C8: the line "1. What is the determinant of a 2x2 matrix?" passes the
    matcher, is normalized to "What is the determinant of a 2x2 matrix?",
    and is retained by the topic filter for the topic "Linear Algebra". *)
Theorem determinant_scenario :
  is_question (strip (py "1. What is the determinant of a 2x2 matrix?")) = true
  ∧ _clean_question (strip (py "1. What is the determinant of a 2x2 matrix?"))
    = py "What is the determinant of a 2x2 matrix?"
  ∧ _extract_questions_basic (py "1. What is the determinant of a 2x2 matrix?")
    = [py "What is the determinant of a 2x2 matrix?"]
  ∧ _filter_by_topic
      (_extract_questions_basic (py "1. What is the determinant of a 2x2 matrix?"))
      (py "Linear Algebra")
    = [py "What is the determinant of a 2x2 matrix?"].
Proof. by vm_compute. Qed.

(** ** LLM enhancement *)

(** In the module as it is written the name [time] is unbound: the first
    iteration ends in an exception, and the method returns its input. *)
Lemma enhance_with_llm_unbound_time complete questions topic :
  _enhance_with_llm extractor_globals (Some complete) questions topic = questions.
Proof.
  unfold _enhance_with_llm. destruct questions as [|question questions]; [done|].
  simpl. unfold enhance_iteration.
  by destruct (complete 0 (prompt topic question)).
Qed.

(** So the extraction as a whole returns the filtered questions, with or
    without [use_llm]. *)
Lemma extract_questions_as_written llm_client text_content topic use_llm :
  extract_questions extractor_globals llm_client text_content topic use_llm
  = match text_content with
    | [] => []
    | _ => _filter_by_topic (_extract_questions_basic text_content) topic
    end.
Proof.
  unfold extract_questions. destruct text_content as [|c text]; [done|].
  destruct (use_llm && bool_decide (is_Some llm_client)
            && bool_decide (_filter_by_topic (_extract_questions_basic (c :: text)) topic ≠ []));
    [|done].
  destruct llm_client as [complete|]; [|done]. apply enhance_with_llm_unbound_time.
Qed.

(** Where [time] is bound and the service answers every request, the method
    returns the accepted answers in the order of the questions. *)
Lemma enhance_loop_time_bound globals (answer : nat → str → str) n topic enhanced questions :
  "time"%string ∈ globals →
  enhance_loop globals (λ n p, inr (answer n p)) n topic enhanced questions
  = (enhanced
     ++ filter (λ result, result ≠ py "UNRELATED" ∧ 10 < length result)
          (imap (λ i question, strip (answer (n + i) (prompt topic question))) questions),
     None).
Proof.
  intros Ht. revert n enhanced.
  induction questions as [|question questions IH]; intros n enhanced.
  - cbn. by rewrite app_nil_r.
  - cbn [enhance_loop imap]. unfold enhance_iteration, time_sleep.
    rewrite bool_decide_eq_true_2 by done. rewrite IH, Nat.add_0_r, filter_cons.
    assert (Himap : imap ((λ i question0, strip (answer (n + i) (prompt topic question0))) ∘ S)
                      questions
                    = imap (λ i question0, strip (answer (S n + i) (prompt topic question0)))
                        questions).
    { apply imap_ext. intros i x _. simpl. by rewrite Nat.add_succ_r. }
    rewrite Himap. clear Himap IH.
    set (result := strip (answer n (prompt topic question))).
    case_decide as Hacc.
    + destruct Hacc as [H1 H2].
      rewrite (bool_decide_eq_false_2 _ H1), (bool_decide_eq_true_2 _ H2).
      cbn [negb andb]. by rewrite <- app_assoc.
    + case_bool_decide as H1; [done|]. case_bool_decide as H2; [tauto | done].
Qed.

(** C7, as stated, fails: an answer other than "UNRELATED" is not accepted
    when it has 10 characters or fewer.  The answer "What is x?" leaves the
    list of enhanced questions empty, and it is not in the list the method
    returns, whether or not [time] is bound. *)
Lemma enhance_with_llm_short_answer_rejected :
  strip (py "What is x?") ≠ py "UNRELATED"
  ∧ (enhance_iteration extractor_globals (λ _ _, inr (py "What is x?")) 0
       (py "Linear Algebra") [] (py "Explain the rank of a matrix.")).1 = []
  ∧ _enhance_with_llm extractor_globals (Some (λ _ _, inr (py "What is x?")))
      [py "Explain the rank of a matrix."] (py "Linear Algebra")
    = [py "Explain the rank of a matrix."]
  ∧ _enhance_with_llm ({["time"%string]} ∪ extractor_globals)
      (Some (λ _ _, inr (py "What is x?")))
      [py "Explain the rank of a matrix."] (py "Linear Algebra")
    = [].
Proof. by vm_compute. Qed.

(** C7 (amended): the answer to a question is stripped of surrounding
    whitespace; if the stripped answer is "UNRELATED", or has 10 characters
    or fewer, nothing is added to the list of enhanced questions, and
    otherwise the stripped answer is appended to it. *)
Theorem enhance_iteration_records (globals : gset string) (complete : llm) (n : nat)
    (topic : str) (enhanced_questions : list str) (question content : str) :
  complete n (prompt topic question) = inr content →
  (enhance_iteration globals complete n topic enhanced_questions question).1
  = if bool_decide (strip content = py "UNRELATED") then enhanced_questions
    else if bool_decide (length (strip content) ≤ 10) then enhanced_questions
    else enhanced_questions ++ [strip content].
Proof.
  intros Hc. unfold enhance_iteration. rewrite Hc. cbn [fst].
  case_bool_decide as H1; cbn [negb andb]; [done|].
  case_bool_decide as H2; case_bool_decide as H3; (done || lia).
Qed.

Lemma enhance_iteration_records_witness :
  (enhance_iteration extractor_globals
     (λ _ _, inr (py " What is the rank of a matrix? ")) 0
     (py "Linear Algebra") [] (py "rank of a matrix?")).1
  = if bool_decide (strip (py " What is the rank of a matrix? ") = py "UNRELATED") then []
    else if bool_decide (length (strip (py " What is the rank of a matrix? ")) ≤ 10) then []
    else [] ++ [strip (py " What is the rank of a matrix? ")].
Proof.
  apply (enhance_iteration_records extractor_globals
           (λ _ _, inr (py " What is the rank of a matrix? ")) 0
           (py "Linear Algebra") [] (py "rank of a matrix?")
           (py " What is the rank of a matrix? ")).
  reflexivity.
Defined.

(** ** Downloading a paper *)

(** C9, as stated, fails: a response with an error status is not written,
    whatever it declares.  The response below has status 404, declares PDF
    and has a body of 1000 bytes; the call returns no path and leaves the
    disk empty. *)
Lemma download_paper_error_status_rejected :
  valid_pdf_response {| status_code := 404;
                        content_type_header := Some (py "application/pdf");
                        content := replicate 1000 Byte.x20 |}
  ∧ _download_paper
      {| exists_raises := λ _, false; write_file := λ _ _, Written |}
      (λ _, Response {| status_code := 404;
                        content_type_header := Some (py "application/pdf");
                        content := replicate 1000 Byte.x20 |})
      ∅ {| url := py "https://papers.example.com/a.pdf"; title := py "Algebra 2022";
           subject := py "Mathematics"; topic := py "Algebra" |}
    = (∅, Returns None).
Proof.
  split; [|by vm_compute]. left. apply str_in_occurs. by vm_compute.
Qed.

(** C9 (amended): when the file is not on disk yet and the request returns a
    response without error status, the response is written to disk, and its
    path returned, if and only if its content type declares PDF or its body
    has at least 1000 bytes, and the file can be written; a response that
    fails both checks leaves the disk unchanged and no path is returned, so
    that a file under the path afterwards means that the response passed. *)
Theorem download_paper_validates (os : file_system) (get : str → fetched) (disk : files)
    (paper : paper_info) (r : response) :
  exists_raises os (file_path_of paper) = false →
  disk !! file_path_of paper = None →
  get (url paper) = Response r →
  raise_for_status r = false →
  (valid_pdf_response r →
   write_file os (file_path_of paper) (content r) = Written →
     _download_paper os get disk paper
     = (<[file_path_of paper := content r]> disk, Returns (Some (file_path_of paper))))
  ∧ (¬ valid_pdf_response r → _download_paper os get disk paper = (disk, Returns None))
  ∧ ((_download_paper os get disk paper).2 = Returns (Some (file_path_of paper))
     ↔ valid_pdf_response r ∧ write_file os (file_path_of paper) (content r) = Written)
  ∧ (is_Some ((_download_paper os get disk paper).1 !! file_path_of paper)
     → valid_pdf_response r).
Proof.
  intros Hex Hnew Hget Hok. unfold _download_paper, valid_pdf_response.
  rewrite Hex, Hnew, Hget, Hok.
  rewrite bool_decide_eq_false_2 by (intros [? [=]]).
  rewrite <- str_in_occurs.
  destruct (str_in (py "pdf") (lower (default [] (content_type_header r)))) eqn:Hpdf;
    cbn [negb andb].
  - split; [by intros _ ->|]. split; [intros []; by left|].
    split; [|intros _; by left].
    destruct (write_file os (file_path_of paper) (content r)); cbn [snd].
    + split; [intros _; split; [by left | done] | done].
    + split; [done | by intros [_ ?]].
    + split; [done | by intros [_ ?]].
  - case_bool_decide as Hlen.
    + split; [intros [?|?]; [done | lia]|]. split; [done|].
      split; [split; [done | intros [[?|?] _]; [done | lia]]|].
      cbn [fst]. rewrite Hnew. by intros [? [=]].
    + split; [by intros _ ->|]. split; [intros []; right; lia|].
      split; [|intros _; right; lia].
      destruct (write_file os (file_path_of paper) (content r)); cbn [snd].
      * split; [intros _; split; [right; lia | done] | done].
      * split; [done | by intros [_ ?]].
      * split; [done | by intros [_ ?]].
Qed.

Lemma download_paper_validates_witness :
  _download_paper
    {| exists_raises := λ _, false; write_file := λ _ _, Written |}
    (λ _, Response {| status_code := 200;
                      content_type_header := Some (py "Application/PDF");
                      content := [] |})
    ∅ {| url := py "https://papers.example.com/a.pdf"; title := py "Algebra 2022";
         subject := py "Mathematics"; topic := py "Algebra" |}
  = (<[py "data/raw_papers/Algebra_2022.pdf" := []]> ∅,
     Returns (Some (py "data/raw_papers/Algebra_2022.pdf"))).
Proof.
  refine (proj1 (download_paper_validates
     {| exists_raises := λ _, false; write_file := λ _ _, Written |}
     (λ _, Response {| status_code := 200;
                       content_type_header := Some (py "Application/PDF");
                       content := [] |})
     ∅ {| url := py "https://papers.example.com/a.pdf"; title := py "Algebra 2022";
          subject := py "Mathematics"; topic := py "Algebra" |}
     {| status_code := 200; content_type_header := Some (py "Application/PDF");
        content := [] |} _ _ _ _) _ _).
  - reflexivity.
  - apply lookup_empty.
  - reflexivity.
  - reflexivity.
  - left. apply str_in_occurs. by vm_compute.
  - reflexivity.
Defined.

(** * Further properties of the code *)

(** ** Evaluation on examples *)

Example clean_filename_ex :
  clean_filename (py "  my: file / name?.pdf  ") = py "my__file___name_.pdf".
Proof. vm_compute. reflexivity. Qed.

Example create_cache_key_ex :
  create_cache_key (py "Linear Algebra") (py "Matrix Rank") = py "linear_algebra_matrix_rank".
Proof. vm_compute. reflexivity. Qed.

(** A link without text gets the title made of the subject and the topic. *)
Example paper_of_link_ex :
  paper_of_link (λ base target, base ++ py " -> " ++ target) (py "https://x.org/s")
    (py "Math") (py "Algebra") {| href := py "/files/math_algebra.PDF"; text := py "  " |}
  = [ {| url := py "https://x.org/s -> /files/math_algebra.PDF";
         title := py "Math_Algebra_paper"; subject := py "Math"; topic := py "Algebra" |} ].
Proof. vm_compute. reflexivity. Qed.

(** Two links with the same text: the second download finds the file of the
    first, and the path is listed once for each link and each search. *)
Example scrape_papers_ex :
  (scrape_papers (λ _ target, target)
     (λ _, Page [ {| href := py "math-algebra-1.pdf"; text := py "Paper 1" |};
                  {| href := py "math-algebra-2.pdf"; text := py "Paper 1" |} ])
     false (λ _, {| exists_raises := λ _, false; write_file := λ _ _, Written |})
     (λ _ _, Response {| status_code := 200;
                         content_type_header := Some (py "application/pdf");
                         content := pdf_magic |})
     ∅ (py "Math") (py "Algebra")).2
  = Some [ py "data/raw_papers/Paper_1.pdf"; py "data/raw_papers/Paper_1.pdf";
           py "data/raw_papers/Paper_1.pdf"; py "data/raw_papers/Paper_1.pdf" ].
Proof. vm_compute. reflexivity. Qed.

(** Where [Path.exists()] raises for the path of the first paper of each
    search, nothing is downloaded: the rest of each search is given up. *)
Example scrape_papers_raises_ex :
  scrape_papers (λ _ target, target)
    (λ _, Page [ {| href := py "math-algebra-1.pdf"; text := py "Paper 1" |};
                 {| href := py "math-algebra-2.pdf"; text := py "Paper 2" |} ])
    false
    (λ _, {| exists_raises := λ p, bool_decide (p = py "data/raw_papers/Paper_1.pdf");
             write_file := λ _ _, Written |})
    (λ _ _, Response {| status_code := 200;
                        content_type_header := Some (py "application/pdf");
                        content := pdf_magic |})
    ∅ (py "Math") (py "Algebra")
  = (∅, Some []).
Proof. vm_compute. reflexivity. Qed.

(** A write that fails leaves a file and returns no path. *)
Example download_paper_write_fails_ex :
  _download_paper
    {| exists_raises := λ _, false; write_file := λ _ _, WriteFailed [] |}
    (λ _, Response {| status_code := 200;
                      content_type_header := Some (py "application/pdf");
                      content := pdf_magic |})
    ∅ {| url := py "https://papers.example.com/a.pdf"; title := py "Algebra 2022";
         subject := py "Mathematics"; topic := py "Algebra" |}
  = (<[py "data/raw_papers/Algebra_2022.pdf" := []]> ∅, Returns None).
Proof. vm_compute. reflexivity. Qed.

(** ** Normalization *)

(** X1: a normalized question has no whitespace at either end, and every
    whitespace character in it is a single space between two other
    characters. *)
Theorem clean_question_is_normalized (question : str) :
  tidy (_clean_question question)
  ∧ starts_clean (_clean_question question)
  ∧ ends_clean (_clean_question question)
  ∧ strip (_clean_question question) = _clean_question question
  ∧ collapse (_clean_question question) = _clean_question question.
Proof.
  destruct (clean_question_normal question) as (Ht & Hs & He).
  repeat split; try done; [by apply strip_id | by apply collapse_id].
Qed.

Lemma lstrip_length s : length (lstrip s) ≤ length s.
Proof. destruct (lstrip_suffix s) as [p Hp]. rewrite Hp at 2. rewrite length_app. lia. Qed.

Lemma rstrip_length s : length (rstrip s) ≤ length s.
Proof. destruct (rstrip_prefix s) as [k Hk]. rewrite Hk at 2. rewrite length_app. lia. Qed.

Lemma strip_length s : length (strip s) ≤ length s.
Proof. unfold strip. etrans; [apply rstrip_length | apply lstrip_length]. Qed.

Lemma join_push c sep fs : fs ≠ [] → join sep (push c fs) = c :: join sep fs.
Proof. destruct fs as [|f [|g fs]]; done. Qed.

(** Joining the fields with a one-character separator gives a string as
    long as the one that was cut. *)
Lemma length_join_fields sep x s : length (join [x] (fields sep s)) = length s.
Proof.
  induction s as [|c s IH]; [done|]. simpl. destruct (sep c).
  - destruct (fields sep s) as [|f fs] eqn:E; [by destruct (fields_not_nil sep s)|].
    simpl in *. by rewrite IH.
  - rewrite join_push by apply fields_not_nil. simpl. by rewrite IH.
Qed.

Lemma length_join_filter sep (l : list str) :
  length (join sep (filter (λ w, nonempty w = true) l)) ≤ length (join sep l).
Proof.
  induction l as [|w l IH]; [done|]. rewrite filter_cons.
  assert (Hcons : ∀ v k, length (join sep (v :: k)) ≤ length v + length sep + length (join sep k)
                         ∧ length v + length (join sep k) ≤ length (join sep (v :: k))).
  { intros v [|u k]; [simpl; lia|].
    change (join sep (v :: u :: k)) with (v ++ sep ++ join sep (u :: k)).
    rewrite !length_app. lia. }
  destruct w as [|c w].
  - rewrite decide_False by done. destruct (Hcons [] l) as [_ H]. cbn [length] in H. lia.
  - rewrite decide_True by done.
    destruct l as [|u l]; [done|].
    change (join sep ((c :: w) :: u :: l)) with ((c :: w) ++ sep ++ join sep (u :: l)).
    destruct (Hcons (c :: w) (filter (λ w, nonempty w = true) (u :: l))) as [H _].
    rewrite !length_app. lia.
Qed.

Lemma collapse_length s : length (collapse s) ≤ length s.
Proof.
  unfold collapse, split. etrans; [apply length_join_filter|].
  change (py " ") with [" "%char]. by rewrite length_join_fields.
Qed.

Lemma re_sub_length r w : length (re_sub (Bol :: r) [] w re_I) ≤ length w.
Proof. destruct (re_sub_suffix r w) as [p Hp]. rewrite Hp at 2. rewrite length_app. lia. Qed.

(** X2: normalization never lengthens a line. *)
Theorem clean_question_length (question : str) :
  length (_clean_question question) ≤ length question.
Proof.
  rewrite clean_question_unfold.
  etrans; [apply strip_length|].
  etrans; [apply (re_sub_length (tail q_prefix))|].
  etrans; [apply (re_sub_length (tail question_prefix))|].
  etrans; [apply (re_sub_length (tail lettered_prefix))|].
  etrans; [apply (re_sub_length (tail numeric_prefix))|].
  apply collapse_length.
Qed.

(** ** The matcher *)

Section matching_complete.
Context (f : flags).

Lemma greedy_complete a k prev p1 s2 :
  Forall (λ c, in_cls f a c = true) p1 →
  is_Some (k (prev_after prev p1) s2) →
  is_Some (greedy f a k prev (p1 ++ s2)).
Proof.
  intros Hp1. revert prev. induction Hp1 as [|c p1 Hc Hp1 IH]; intros prev Hk.
  - simpl in *. destruct s2 as [|c s2]; simpl; [done|].
    destruct (in_cls f a c); [|done].
    destruct (greedy f a k (Some c) s2); [by eexists | done].
  - simpl. rewrite Hc. rewrite prev_after_cons in Hk.
    destruct (IH (Some c) Hk) as [m ->]. by eexists.
Qed.

(** Whatever the pattern denotes at a position, the matcher finds a match
    there. *)
Lemma match_here_complete r prev p after :
  denotes f r prev p after → is_Some (match_here f r prev (p ++ after)).
Proof.
  revert prev p. induction r as [|i r IH]; intros prev p; simpl.
  - intros ->. by eexists.
  - destruct i as [| |a|a|a|a].
    + intros [-> H]. by apply IH.
    + intros [-> H]. by apply IH.
    + intros (c & p' & -> & Hc & H). simpl. rewrite Hc. by apply IH.
    + intros (p1 & p2 & -> & Hp1 & H). rewrite <- app_assoc.
      apply greedy_complete; [done | by apply IH].
    + intros (p1 & p2 & -> & Hne & Hp1 & H). destruct Hp1 as [|c p1 Hc Hp1]; [done|].
      simpl. rewrite Hc, <- app_assoc. rewrite prev_after_cons in H.
      apply greedy_complete; [done | by apply IH].
    + intros [H | (c & p' & -> & Hc & H)].
      * apply IH in H. destruct (p ++ after) as [|c s]; [done|].
        destruct (in_cls f a c); [|done].
        destruct (match_here f r (Some c) s); [by eexists | done].
      * simpl. rewrite Hc. apply IH in H as [m ->]. by eexists.
Qed.

(** [re.match] succeeds exactly when the string begins with a text that the
    pattern denotes. *)
Lemma re_match_denotes pattern s :
  re_match pattern s f = true ↔ ∃ p after, s = p ++ after ∧ denotes f pattern None p after.
Proof.
  unfold re_match. split.
  - destruct (match_here f pattern None s) as [[prev' rest]|] eqn:E; [|done].
    intros _. apply match_here_sound in E as (p & -> & _ & H). by exists p, rest.
  - intros (p & after & -> & H). by apply match_here_complete in H as [m ->].
Qed.

(** A match contains a character for each single-character item of the
    pattern. *)
Lemma denotes_one r a prev p after :
  denotes f r prev p after → One a ∈ r → ∃ c, c ∈ p ∧ in_cls f a c = true.
Proof.
  revert prev p. induction r as [|i r IH]; intros prev p H Hin.
  - by apply elem_of_nil in Hin.
  - apply elem_of_cons in Hin. destruct i as [| |b|b|b|b]; simpl in H.
    + destruct H as [_ H]. destruct Hin as [[=]|Hin]. eauto.
    + destruct H as [_ H]. destruct Hin as [[=]|Hin]. eauto.
    + destruct H as (c & p' & -> & Hc & H). destruct Hin as [[= ->]|Hin].
      * exists c. split; [apply elem_of_cons; by left | done].
      * destruct (IH _ _ H Hin) as (d & Hd & ?). exists d.
        split; [apply elem_of_cons; by right | done].
    + destruct H as (p1 & p2 & -> & _ & H). destruct Hin as [[=]|Hin].
      destruct (IH _ _ H Hin) as (d & Hd & ?). exists d.
      split; [apply elem_of_app; by right | done].
    + destruct H as (p1 & p2 & -> & _ & _ & H). destruct Hin as [[=]|Hin].
      destruct (IH _ _ H Hin) as (d & Hd & ?). exists d.
      split; [apply elem_of_app; by right | done].
    + destruct Hin as [[=]|Hin]. destruct H as [H | (c & p' & -> & _ & H)].
      * eauto.
      * destruct (IH _ _ H Hin) as (d & Hd & ?). exists d.
        split; [apply elem_of_cons; by right | done].
Qed.

End matching_complete.

Lemma lower_char_question_mark c : lower_char c = "?"%char → c = "?"%char.
Proof. by destruct c as [[] [] [] [] [] [] [] []]. Qed.

Lemma lower_char_q c : lower_char c = "q"%char → c = "Q"%char ∨ c = "q"%char.
Proof. destruct c as [[] [] [] [] [] [] [] []]; (done || auto). Qed.

Lemma lstrip_app_space p s :
  Forall (λ c, isspace c = true) p → lstrip (p ++ s) = lstrip s.
Proof. induction 1 as [|c p Hc Hp IH]; simpl; [done|]. by rewrite Hc. Qed.

Lemma strip_elem s c : c ∈ strip s → c ∈ s.
Proof.
  unfold strip. intros H. destruct (rstrip_prefix (lstrip s)) as [k Hk].
  destruct (lstrip_suffix s) as [p Hp]. rewrite Hp, Hk, !elem_of_app. auto.
Qed.

(** X3: a line without a newline whose stripped form has at least 10
    characters and ends in a question mark is accepted by the matcher: the
    loop adds its normalized form to the questions if that form is longer
    than 15 characters, and nothing otherwise; and when the line is a line of
    a text and the form is that long, the form is among the questions
    extracted from the text. *)
Theorem question_mark_line_accepted (questions : list str) (line body : str) :
  strip line = body ++ py "?" → 9 ≤ length body → newline ∉ line →
  is_question line = true
  ∧ line_step questions line
    = (if bool_decide (15 < length (_clean_question (strip line)))
       then questions ++ [_clean_question (strip line)] else questions)
  ∧ ∀ text, line ∈ fields (fun c => bool_decide (c = newline)) text →
            15 < length (_clean_question (strip line)) →
            _clean_question (strip line) ∈ _extract_questions_basic text.
Proof.
  intros Hstrip Hlen Hnl.
  assert (Hq : is_question line = true).
  { unfold is_question. cbv zeta. rewrite Hstrip. apply andb_true_iff. split.
    - rewrite bool_decide_eq_false_2; [done|]. rewrite length_app. simpl. lia.
    - apply any_true. exists [Bol; Plus Dot; One (Lit "?"); Star Space; Eol].
      split; [unfold patterns; rewrite !elem_of_cons; tauto|].
      apply re_match_denotes. exists (body ++ py "?"), []. split; [by rewrite app_nil_r|].
      simpl. split; [done|]. exists body, (py "?").
      split; [done|]. split; [intros ->; simpl in Hlen; lia|]. split.
      + apply Forall_forall. intros c Hc. apply negb_true_iff, bool_decide_eq_false_2.
        intros ->. apply Hnl, strip_elem. rewrite Hstrip. apply elem_of_app. by left.
      + exists "?"%char, []. split; [done|]. split; [done|].
        exists [], []. split; [done|]. split; [done|]. done. }
  split; [done|]. split.
  - rewrite line_step_spec. unfold candidate_of. rewrite Hq. cbn [andb].
    case_bool_decide; [done | by rewrite app_nil_r].
  - intros text Hline Hlong. unfold _extract_questions_basic.
    apply remove_duplicates_elem, candidates_elem. exists line.
    by rewrite is_question_strip.
Qed.

Lemma question_mark_line_accepted_witness :
  is_question (py "  Why is it so?  ") = true.
Proof.
  apply (question_mark_line_accepted [] (py "  Why is it so?  ") (py "Why is it so")).
  - reflexivity.
  - simpl. lia.
  - intros H%list_elem_of_In. vm_compute in H. intuition discriminate.
Defined.

(** X4: a line that the matcher accepts has at least 10 characters, and it
    contains a question mark or its first character that is not whitespace
    is a letter Q, in either case. *)
Theorem is_question_shape (line : str) :
  is_question line = true →
  10 ≤ length line
  ∧ ("?"%char ∈ line
     ∨ ∃ c rest, lstrip line = c :: rest ∧ (c = "Q"%char ∨ c = "q"%char)).
Proof.
  unfold is_question. cbv zeta. intros [Hlen Hany]%andb_true_iff. split.
  { apply negb_true_iff, bool_decide_eq_false in Hlen.
    pose proof (strip_length line). lia. }
  apply any_true in Hany as (pattern & Hin & Hm).
  apply re_match_denotes in Hm as (p & after & Hline & Hd).
  assert (Hq : One (Lit "?") ∈ pattern → "?"%char ∈ line).
  { intros Hone. destruct (denotes_one _ _ _ _ _ _ Hd Hone) as (c & Hc & Hsame).
    apply bool_decide_eq_true, lower_char_question_mark in Hsame as ->.
    apply strip_elem. rewrite Hline. apply elem_of_app. by left. }
  assert (HQ : (∃ r, pattern = Bol :: Star Space :: One (Lit "Q") :: r) →
               ∃ c rest, lstrip line = c :: rest ∧ (c = "Q"%char ∨ c = "q"%char)).
  { intros [r ->]. simpl in Hd.
    destruct Hd as (_ & p1 & p2 & -> & Hsp & c & p' & -> & Hc & _).
    apply bool_decide_eq_true, lower_char_q in Hc.
    assert (Hs : lstrip (strip line) = c :: p' ++ after).
    { rewrite Hline, <- app_assoc, lstrip_app_space by done. simpl.
      by destruct Hc as [-> | ->]. }
    rewrite lstrip_id in Hs by apply strip_starts_clean.
    unfold strip in Hs. destruct (rstrip_prefix (lstrip line)) as [k Hk].
    rewrite Hs in Hk. exists c, ((p' ++ after) ++ k). by split. }
  unfold patterns in Hin. rewrite !elem_of_cons, elem_of_nil in Hin.
  destruct Hin as [->|[->|[->|[->|[->|[]]]]]].
  - left. apply Hq. rewrite !elem_of_cons. tauto.
  - left. apply Hq. rewrite !elem_of_cons. tauto.
  - right. apply HQ. by eexists.
  - right. apply HQ. by eexists.
  - left. apply Hq. rewrite !elem_of_cons. tauto.
Qed.

Lemma is_question_shape_witness :
  10 ≤ length (py "Q12. State the theorem")
  ∧ ("?"%char ∈ py "Q12. State the theorem"
     ∨ ∃ c rest, lstrip (py "Q12. State the theorem") = c :: rest
                 ∧ (c = "Q"%char ∨ c = "q"%char)).
Proof.
  apply (is_question_shape (py "Q12. State the theorem")). by vm_compute.
Defined.

(** ** Extraction over lines and pages *)

Lemma candidates_bind text :
  candidates text = fields (fun c => bool_decide (c = newline)) text ≫= candidate_of.
Proof. unfold candidates. by rewrite foldl_line_step. Qed.

(** The candidates of a text are found line by line. *)
Lemma candidates_app_newline a b :
  candidates (a ++ newline :: b) = candidates a ++ candidates b.
Proof.
  rewrite !candidates_bind, fields_app_sep by by rewrite bool_decide_eq_true_2.
  apply bind_app.
Qed.

Lemma remove_duplicates_app_prefix l k :
  remove_duplicates l `prefix_of` remove_duplicates (l ++ k).
Proof.
  induction k as [|x k IH] using rev_ind.
  - by rewrite app_nil_r.
  - rewrite app_assoc, remove_duplicates_snoc. case_decide; [done|].
    by apply prefix_app_r.
Qed.

Lemma remove_duplicates_id l : NoDup l → remove_duplicates l = l.
Proof.
  induction l as [|x l IH] using rev_ind; [done|].
  intros [Hl [Hx _]]%NoDup_app. rewrite remove_duplicates_snoc, IH by done.
  rewrite decide_False; [done|]. intros H. apply (Hx x H). by apply list_elem_of_singleton.
Qed.

(** X5: the deduplication pass leaves a list without repetitions as it is; so
    running it twice is the same as running it once, and the questions
    extracted from a text are not changed by it. *)
Theorem remove_duplicates_idempotent (questions : list str) :
  (NoDup questions → remove_duplicates questions = questions)
  ∧ remove_duplicates (remove_duplicates questions) = remove_duplicates questions
  ∧ ∀ text, remove_duplicates (_extract_questions_basic text) = _extract_questions_basic text.
Proof.
  split; [apply remove_duplicates_id|]. split.
  - apply remove_duplicates_id, remove_duplicates_NoDup.
  - intros text. apply remove_duplicates_id, remove_duplicates_NoDup.
Qed.

(** X6: extraction works line by line: the questions of a text followed by a
    newline and more text are those of the first part, in the same order,
    followed by questions of the second part; a question is found in the
    whole exactly when it is found in one of the parts. *)
Theorem extract_questions_basic_app (a b : str) :
  _extract_questions_basic a `prefix_of` _extract_questions_basic (a ++ newline :: b)
  ∧ ∀ q, q ∈ _extract_questions_basic (a ++ newline :: b)
         ↔ q ∈ _extract_questions_basic a ∨ q ∈ _extract_questions_basic b.
Proof.
  unfold _extract_questions_basic. rewrite candidates_app_newline. split.
  - apply remove_duplicates_app_prefix.
  - intros q. by rewrite !remove_duplicates_elem, elem_of_app.
Qed.

Lemma candidates_nil : candidates [] = [].
Proof. reflexivity. Qed.

Lemma extract_pdf_text_foldl pages acc :
  foldl (fun text_content (page : exn + str) =>
           match page with
           | inr page_text => text_content ++ page_text ++ [newline]
           | inl _ => text_content
           end) acc pages
  = acc ++ _extract_pdf_text (Some pages).
Proof.
  unfold _extract_pdf_text. revert acc.
  induction pages as [|page pages IH] using rev_ind; intros acc.
  - by rewrite app_nil_r.
  - rewrite !foldl_snoc, IH. destruct page as [e|page_text]; [done|].
    simpl. by rewrite <- !app_assoc.
Qed.

Lemma extract_pdf_text_cons page pages :
  _extract_pdf_text (Some (page :: pages))
  = match page with
    | inr page_text => page_text ++ newline :: _extract_pdf_text (Some pages)
    | inl _ => _extract_pdf_text (Some pages)
    end.
Proof.
  unfold _extract_pdf_text at 1. simpl. rewrite extract_pdf_text_foldl.
  destruct page as [e|page_text]; [done|]. by rewrite <- app_assoc.
Qed.

(** X7: the questions extracted from the text of a PDF are those of its
    pages: a question is returned exactly when it is extracted from the text
    of some page that could be read.  A file that cannot be read, and a page
    whose text extraction fails, give nothing. *)
Theorem extract_pdf_questions_by_page (pdf : option (list (exn + str))) (q : str) :
  q ∈ _extract_questions_basic (_extract_pdf_text pdf)
  ↔ ∃ pages page_text,
      pdf = Some pages ∧ inr page_text ∈ pages ∧ q ∈ _extract_questions_basic page_text.
Proof.
  unfold _extract_questions_basic. setoid_rewrite remove_duplicates_elem.
  destruct pdf as [pages|]; [|split; [by intros ?%elem_of_nil | by intros (? & ? & [=] & _)]].
  transitivity (∃ page_text, inr page_text ∈ pages ∧ q ∈ candidates page_text).
  - induction pages as [|page pages IH].
    + split; [by intros ?%elem_of_nil | by intros (? & ?%elem_of_nil & _)].
    + rewrite extract_pdf_text_cons. destruct page as [e|page_text].
      * rewrite IH. split; intros (t & Ht & Hq); exists t; (split; [|done]).
        -- apply elem_of_cons. by right.
        -- by apply elem_of_cons in Ht as [[=]|Ht].
      * rewrite candidates_app_newline, elem_of_app, IH. split.
        -- intros [Hq|(t & Ht & Hq)].
           ++ exists page_text. split; [apply elem_of_cons; by left | done].
           ++ exists t. split; [apply elem_of_cons; by right | done].
        -- intros (t & [[= ->]|Ht]%elem_of_cons & Hq); [by left|]. right. by exists t.
  - split; [intros (t & ? & ?); by exists pages, t | by intros (? & t & [= <-] & ? & ?); exists t].
Qed.

(** X8: a text of fewer than 10 characters, the empty text among them,
    gives no question. *)
Theorem extract_questions_basic_short (text : str) :
  length text < 10 → _extract_questions_basic text = [].
Proof.
  intros Hlen. unfold _extract_questions_basic.
  assert (Hnone : candidates text = []); [|by rewrite Hnone].
  destruct (candidates text) as [|q l] eqn:E; [done|].
  assert (Hq : q ∈ candidates text) by (rewrite E; apply elem_of_cons; by left).
  apply candidates_elem in Hq as (line & Hline & Hm & _).
  apply fields_occurs in Hline as (a & b & ->).
  rewrite is_question_strip in Hm. unfold is_question in Hm. cbv zeta in Hm.
  apply andb_true_iff in Hm as [Hm _].
  apply negb_true_iff, bool_decide_eq_false in Hm.
  pose proof (strip_length line). rewrite !length_app in Hlen. lia.
Qed.

Lemma extract_questions_basic_short_witness : _extract_questions_basic (py "Why so?") = [].
Proof. apply (extract_questions_basic_short (py "Why so?")). simpl. lia. Defined.

(** ** More on the topic filter *)

(** X9: on a list of questions without repetitions, and for a non-empty
    topic, the filter returns the questions that one of the two rules keeps,
    in the order of the input. *)
Theorem filter_by_topic_order (questions : list str) (topic : str) :
  topic ≠ [] → NoDup questions →
  _filter_by_topic questions topic
  = filter (λ q, keeps topic (split (lower topic)) q = true) questions
  ∧ _filter_by_topic questions topic `sublist_of` questions
  ∧ ∀ q, keeps topic (split (lower topic)) q = true
         ↔ token_rule topic q ∨ algebra_rule topic q.
Proof.
  intros Ht Hnd. destruct topic as [|c topic]; [done|].
  rewrite filter_by_topic_NoDup by done. split; [done|]. split; [apply sublist_filter|].
  intros q. apply keeps_rules.
Qed.

Lemma filter_by_topic_order_witness :
  _filter_by_topic [py "Define a group"; py "Invert the matrix"; py "Solve the system"]
                   (py "algebra")
  = filter (λ q, keeps (py "algebra") (split (lower (py "algebra"))) q = true)
      [py "Define a group"; py "Invert the matrix"; py "Solve the system"].
Proof.
  apply (filter_by_topic_order
           [py "Define a group"; py "Invert the matrix"; py "Solve the system"]
           (py "algebra")); [done|].
  apply (bool_decide_unpack
           (NoDup [py "Define a group"; py "Invert the matrix"; py "Solve the system"])).
  by vm_compute.
Defined.

Lemma filtered_list_snoc_inv topic tw l q :
  filtered_list topic tw (l ++ [q]) →
  filtered_list topic tw l ∧ keeps topic tw q = true
  ∧ (any (fun word => str_in word (lower q)) tw = true ∨ q ∉ l).
Proof.
  inversion 1 as [E|l' q' Hl Hk Hq E]; [by destruct l|].
  by apply app_inj_tail in E as [-> ->].
Qed.

Lemma filtered_list_prefix topic tw l k :
  filtered_list topic tw (l ++ k) → filtered_list topic tw l.
Proof.
  induction k as [|x k IH] using rev_ind.
  - by rewrite app_nil_r.
  - rewrite app_assoc. intros [H _]%filtered_list_snoc_inv. auto.
Qed.

Lemma filter_step_filtered topic tw acc q :
  filtered_list topic tw acc → filtered_list topic tw (filter_step topic tw acc q).
Proof.
  intros Hacc. unfold filter_step.
  destruct (any (fun word => str_in word (lower q)) tw) eqn:Ha;
    destruct (str_in (py "algebra") (lower topic)
              && any (fun term => str_in term (lower q)) related_terms) eqn:Hb.
  - rewrite bool_decide_eq_true_2 by (apply elem_of_app; right; by apply list_elem_of_singleton).
    constructor; [done | unfold keeps; by rewrite Ha | by left].
  - constructor; [done | unfold keeps; by rewrite Ha | by left].
  - case_bool_decide as Hq; [done|].
    constructor; [done | unfold keeps; by rewrite Ha, Hb | by right].
  - done.
Qed.

Lemma foldl_filter_step_filtered topic tw qs acc :
  filtered_list topic tw acc → filtered_list topic tw (foldl (filter_step topic tw) acc qs).
Proof.
  revert acc. induction qs as [|q qs IH]; intros acc Hacc; simpl; [done|].
  by apply IH, filter_step_filtered.
Qed.

Lemma foldl_filter_step_fixed topic tw l acc :
  filtered_list topic tw (acc ++ l) → foldl (filter_step topic tw) acc l = acc ++ l.
Proof.
  revert acc. induction l as [|q l IH]; intros acc H; simpl.
  - by rewrite app_nil_r.
  - assert (Hstep : filter_step topic tw acc q = acc ++ [q]).
    { assert (Hq : filtered_list topic tw (acc ++ [q])).
      { apply (filtered_list_prefix _ _ _ l). by rewrite <- app_assoc. }
      apply filtered_list_snoc_inv in Hq as (_ & Hk & Hq).
      unfold filter_step. unfold keeps in Hk.
      destruct (any (fun word => str_in word (lower q)) tw) eqn:Ha.
      - rewrite bool_decide_eq_true_2
          by (apply elem_of_app; right; by apply list_elem_of_singleton).
        by destruct (_ && _).
      - cbn [orb] in Hk. rewrite Hk. destruct Hq as [?|Hq]; [done|].
        by rewrite bool_decide_eq_false_2. }
    rewrite Hstep, IH; [by rewrite <- app_assoc | by rewrite <- app_assoc].
Qed.

(** X10: filtering is idempotent: filtering the result again with the same
    topic changes nothing, whether or not the input has repetitions. *)
Theorem filter_by_topic_idempotent (questions : list str) (topic : str) :
  _filter_by_topic (_filter_by_topic questions topic) topic
  = _filter_by_topic questions topic.
Proof.
  destruct topic as [|c topic]; [done|]. unfold _filter_by_topic.
  apply (foldl_filter_step_fixed _ _ _ []). simpl.
  apply foldl_filter_step_filtered. constructor.
Qed.

Lemma lower_char_idemp c : lower_char (lower_char c) = lower_char c.
Proof. by destruct c as [[] [] [] [] [] [] [] []]. Qed.

Lemma lower_idemp s : lower (lower s) = lower s.
Proof.
  unfold lower. rewrite <- list_fmap_compose. apply list_fmap_ext.
  intros i c _. apply lower_char_idemp.
Qed.

(** X11: the filter reads the topic without regard to case: two topics with
    the same lowercase form select the same questions. *)
Theorem filter_by_topic_topic_case (questions : list str) (topic topic' : str) :
  lower topic = lower topic' →
  _filter_by_topic questions topic = _filter_by_topic questions topic'.
Proof.
  intros Hl. destruct topic as [|c topic], topic' as [|c' topic']; try done.
  unfold _filter_by_topic. rewrite Hl. f_equal.
  unfold filter_step. by rewrite Hl.
Qed.

Lemma filter_by_topic_topic_case_witness :
  _filter_by_topic [py "Find the rank"] (py "RANK") = _filter_by_topic [py "Find the rank"] (py "Rank").
Proof.
  apply (filter_by_topic_topic_case [py "Find the rank"] (py "RANK") (py "Rank")).
  reflexivity.
Defined.

(** ** More on LLM enhancement *)

(** X12: as the module is written, with [time] never imported,
    [_enhance_with_llm] returns the list it was given, for every client and
    whatever the service answers; and [extract_questions] returns the
    topic-filtered questions whether or not [use_llm] is set. *)
Theorem enhancement_has_no_effect (llm_client : option llm) (questions : list str)
    (text_content topic : str) (use_llm : bool) :
  _enhance_with_llm extractor_globals llm_client questions topic = questions
  ∧ extract_questions extractor_globals llm_client text_content topic use_llm
    = extract_questions extractor_globals llm_client text_content topic false.
Proof.
  split.
  - destruct llm_client as [complete|]; [apply enhance_with_llm_unbound_time | done].
  - by rewrite !extract_questions_as_written.
Qed.

Lemma enhance_loop_raises globals complete n topic enhanced questions i q e :
  questions !! i = Some q →
  complete (n + i) (prompt topic q) = inl e →
  is_Some (enhance_loop globals complete n topic enhanced questions).2.
Proof.
  revert n i enhanced. induction questions as [|q0 questions IH]; intros n i enhanced Hq Hc.
  - done.
  - cbn [enhance_loop]. destruct i as [|i]; simpl in Hq.
    + injection Hq as ->. rewrite Nat.add_0_r in Hc. unfold enhance_iteration.
      rewrite Hc. by eexists.
    + destruct (enhance_iteration globals complete n topic enhanced q0) as [enhanced' [e'|]].
      * by eexists.
      * apply (IH (S n) i); [done|]. by replace (S n + i) with (n + S i) by lia.
Qed.

(** X13: if the completion service raises on the request for one of the
    questions, the method returns the list it was given, whatever names
    are bound and whatever the other answers are. *)
Theorem enhance_with_llm_service_failure (globals : gset string) (complete : llm)
    (questions : list str) (topic : str) (i : nat) (q : str) (e : exn) :
  questions !! i = Some q →
  complete i (prompt topic q) = inl e →
  _enhance_with_llm globals (Some complete) questions topic = questions.
Proof.
  intros Hq Hc. unfold _enhance_with_llm.
  destruct (enhance_loop_raises globals complete 0 topic [] questions i q e Hq Hc) as [e' He].
  destruct (enhance_loop globals complete 0 topic [] questions) as [enhanced exc].
  simpl in He. by rewrite He.
Qed.

Lemma enhance_with_llm_service_failure_witness :
  _enhance_with_llm ({["time"%string]} ∪ extractor_globals)
    (Some (λ n _, if bool_decide (n = 1) then inl ServiceError
                  else inr (py "What is the rank of the matrix A?")))
    [py "rank of the matrix"; py "solve the system"] (py "algebra")
  = [py "rank of the matrix"; py "solve the system"].
Proof.
  apply (enhance_with_llm_service_failure _ _ _ _ 1 (py "solve the system") ServiceError);
    reflexivity.
Defined.

Lemma enhance_loop_completes globals complete n topic enhanced questions out :
  enhance_loop globals complete n topic enhanced questions = (out, None) →
  ∃ added, out = enhanced ++ added
           ∧ Forall (λ r, r ≠ py "UNRELATED" ∧ 10 < length r ∧ strip r = r) added
           ∧ length added ≤ length questions.
Proof.
  revert n enhanced. induction questions as [|q questions IH]; intros n enhanced.
  - intros [= <-]. exists []. by rewrite app_nil_r.
  - cbn [enhance_loop]. unfold enhance_iteration.
    destruct (complete n (prompt topic q)) as [e|content]; [done|].
    destruct (time_sleep globals); [done|].
    intros (added & -> & Hadded & Hlen)%IH.
    case_bool_decide as H1; cbn [negb andb].
    + exists added. split; [done|]. split; [done | simpl; lia].
    + case_bool_decide as H2.
      * exists (strip content :: added). rewrite <- app_assoc. split; [done|]. split.
        -- constructor; [|done]. split; [done|]. split; [done|].
           apply strip_id; [apply strip_starts_clean | apply strip_ends_clean].
        -- simpl. lia.
      * exists added. split; [done|]. split; [done | simpl; lia].
Qed.

(** X14: the method never returns more questions than it was given; and it
    returns either the given list, or a list of answers each of which is
    stripped, differs from "UNRELATED" and is longer than 10 characters. *)
Theorem enhance_with_llm_output (globals : gset string) (llm_client : option llm)
    (questions : list str) (topic : str) :
  length (_enhance_with_llm globals llm_client questions topic) ≤ length questions
  ∧ (_enhance_with_llm globals llm_client questions topic = questions
     ∨ Forall (λ r, r ≠ py "UNRELATED" ∧ 10 < length r ∧ strip r = r)
         (_enhance_with_llm globals llm_client questions topic)).
Proof.
  unfold _enhance_with_llm. destruct llm_client as [complete|]; [|split; [done | by left]].
  destruct (enhance_loop globals complete 0 topic [] questions) as [out [e|]] eqn:E;
    [split; [done | by left]|].
  apply enhance_loop_completes in E as (added & -> & Hadded & Hlen). simpl.
  split; [done | by right].
Qed.

(** ** More on downloading *)

Lemma download_paper_cases os get disk paper :
  (exists_raises os (file_path_of paper) = true
   ∧ _download_paper os get disk paper = (disk, Raises))
  ∨ (exists_raises os (file_path_of paper) = false
     ∧ is_Some (disk !! file_path_of paper)
     ∧ _download_paper os get disk paper = (disk, Returns (Some (file_path_of paper))))
  ∨ (exists_raises os (file_path_of paper) = false
     ∧ disk !! file_path_of paper = None
     ∧ _download_paper os get disk paper = (disk, Returns None))
  ∨ (∃ partial, exists_raises os (file_path_of paper) = false
                ∧ disk !! file_path_of paper = None
                ∧ _download_paper os get disk paper
                  = (<[file_path_of paper := partial]> disk, Returns None))
  ∨ (∃ r, exists_raises os (file_path_of paper) = false
          ∧ disk !! file_path_of paper = None
          ∧ get (url paper) = Response r
          ∧ _download_paper os get disk paper
            = (<[file_path_of paper := content r]> disk,
               Returns (Some (file_path_of paper)))).
Proof.
  unfold _download_paper. cbv zeta.
  destruct (exists_raises os (file_path_of paper)); [by left|]. right.
  case_bool_decide as Hex; [by left|]. right.
  assert (disk !! file_path_of paper = None) as Hnone.
  { destruct (disk !! file_path_of paper) eqn:E; [|done]. destruct Hex. by eexists. }
  destruct (get (url paper)) as [|r]; [by left|].
  destruct (raise_for_status r); [by left|].
  destruct (negb _ && _); [by left|].
  destruct (write_file os (file_path_of paper) (content r)) as [| |partial].
  - right. right. by exists r.
  - by left.
  - right. left. by exists partial.
Qed.

(** X15: a download never removes or changes a file that is on disk: every
    file of the disk before is on the disk after, with the same content. *)
Theorem download_paper_keeps_files (os : file_system) (get : str → fetched)
    (disk : files) (paper : paper_info) :
  disk ⊆ (_download_paper os get disk paper).1.
Proof.
  destruct (download_paper_cases os get disk paper)
    as [[_ ->]|[(_ & _ & ->)|[(_ & _ & ->)|[(partial & _ & Hnone & ->)|(r & _ & Hnone & _ & ->)]]]];
    simpl; try done; by apply insert_subseteq.
Qed.

(** X16: when a download returns a path, it is the path computed from the
    title and a file is on disk under it; when it returns nothing, the disk
    is unchanged, or the path computed from the title had no file and has one
    now, left by a write that failed, and no other file changed; when it
    raises, the disk is unchanged. *)
Theorem download_paper_result (os : file_system) (get : str → fetched)
    (disk : files) (paper : paper_info) :
  match _download_paper os get disk paper with
  | (disk', Returns (Some file_path)) =>
      file_path = file_path_of paper ∧ is_Some (disk' !! file_path)
  | (disk', Returns None) =>
      disk' = disk
      ∨ (disk !! file_path_of paper = None
         ∧ ∃ partial, disk' = <[file_path_of paper := partial]> disk)
  | (disk', Raises) => disk' = disk
  end.
Proof.
  destruct (download_paper_cases os get disk paper)
    as [[_ ->]|[(_ & ? & ->)|[(_ & _ & ->)|[(partial & _ & Hnone & ->)|(r & _ & Hnone & _ & ->)]]]].
  - done.
  - done.
  - by left.
  - right. split; [done|]. by exists partial.
  - split; [done|]. rewrite lookup_insert_eq. by eexists.
Qed.

(** X17: once a download has returned a path, downloading the same paper
    again returns the same path and leaves the disk as it is, whatever the
    server answers then and whether or not a write would succeed then; in
    an environment where the existence check may newly raise, the second
    download raises or returns the same path, and leaves the disk as it is
    either way. *)
Theorem download_paper_again (os os' : file_system) (get get' : str → fetched)
    (disk : files) (paper : paper_info) (file_path : str) :
  (_download_paper os get disk paper).2 = Returns (Some file_path) →
  _download_paper {| exists_raises := exists_raises os; write_file := write_file os' |}
    get' (_download_paper os get disk paper).1 paper
  = ((_download_paper os get disk paper).1, Returns (Some file_path))
  ∧ _download_paper os' get' (_download_paper os get disk paper).1 paper
    = ((_download_paper os get disk paper).1,
       if exists_raises os' file_path then Raises else Returns (Some file_path)).
Proof.
  destruct (download_paper_cases os get disk paper)
    as [[_ ->]|[(Hos & Hex & ->)|[(_ & _ & ->)|[(partial & _ & _ & ->)|(r & Hos & _ & _ & ->)]]]];
    simpl; try done.
  - intros [= <-]. unfold _download_paper. cbv zeta. simpl. rewrite Hos.
    destruct (exists_raises os' (file_path_of paper)); by rewrite bool_decide_eq_true_2.
  - intros [= <-]. unfold _download_paper. cbv zeta. simpl. rewrite Hos.
    destruct (exists_raises os' (file_path_of paper));
      by rewrite bool_decide_eq_true_2 by (rewrite lookup_insert_eq; by eexists).
Qed.

Lemma download_paper_again_witness :
  _download_paper
    {| exists_raises := λ _, false; write_file := λ _ _, NotOpened |}
    (λ _, RequestFailed)
    (_download_paper
       {| exists_raises := λ _, false; write_file := λ _ _, Written |}
       (λ _, Response {| status_code := 200;
                         content_type_header := Some (py "application/pdf");
                         content := pdf_magic |})
       ∅ {| url := py "https://papers.example.com/a.pdf"; title := py "Algebra 2022";
            subject := py "Mathematics"; topic := py "Algebra" |}).1
    {| url := py "https://papers.example.com/a.pdf"; title := py "Algebra 2022";
       subject := py "Mathematics"; topic := py "Algebra" |}
  = ((_download_paper
        {| exists_raises := λ _, false; write_file := λ _ _, Written |}
        (λ _, Response {| status_code := 200;
                          content_type_header := Some (py "application/pdf");
                          content := pdf_magic |})
        ∅ {| url := py "https://papers.example.com/a.pdf"; title := py "Algebra 2022";
             subject := py "Mathematics"; topic := py "Algebra" |}).1,
     Returns (Some (py "data/raw_papers/Algebra_2022.pdf"))).
Proof.
  apply (download_paper_again
    {| exists_raises := λ _, false; write_file := λ _ _, Written |}
    {| exists_raises := λ _, false; write_file := λ _ _, NotOpened |}
    (λ _, Response {| status_code := 200;
                      content_type_header := Some (py "application/pdf");
                      content := pdf_magic |})
    (λ _, RequestFailed) ∅
    {| url := py "https://papers.example.com/a.pdf"; title := py "Algebra 2022";
       subject := py "Mathematics"; topic := py "Algebra" |}
    (py "data/raw_papers/Algebra_2022.pdf")).
  by vm_compute.
Defined.

(** ** Searching and scraping *)

Lemma endswith_occurs p s : endswith p s = true → occurs_in p s.
Proof.
  unfold endswith. intros [k Hk]%startswith_prefix.
  exists (reverse k), []. rewrite app_nil_r.
  by rewrite <- (reverse_involutive s), Hk, reverse_app, reverse_involutive.
Qed.

Section searching.
Context (urljoin : str → str → str).

Lemma paper_of_link_spec search_url subject0 topic0 link paper :
  paper ∈ paper_of_link urljoin search_url subject0 topic0 link →
  url paper = urljoin search_url (href link)
  ∧ subject paper = subject0 ∧ topic paper = topic0
  ∧ title paper ≠ []
  ∧ occurs_in (py "pdf") (lower (href link))
  ∧ (occurs_in (lower subject0) (lower (text link))
     ∨ occurs_in (lower subject0) (lower (href link)))
  ∧ (occurs_in (lower topic0) (lower (text link))
     ∨ occurs_in (lower topic0) (lower (href link))).
Proof.
  unfold paper_of_link.
  destruct (nonempty (href link) && _) eqn:Hpdf; [|by intros ?%elem_of_nil].
  destruct ((str_in (lower subject0) _ || _) && _) eqn:Hst; [|by intros ?%elem_of_nil].
  intros ->%list_elem_of_singleton. simpl.
  apply andb_true_iff in Hpdf as [_ Hpdf]. apply andb_true_iff in Hst as [Hs Ht].
  apply orb_true_iff in Hs, Ht. rewrite !str_in_occurs in Hs, Ht.
  repeat split; try done.
  - destruct (strip (text link)); [|done]. by destruct subject0.
  - apply orb_true_iff in Hpdf as [Hend|Hin]; [|by apply str_in_occurs].
    apply endswith_occurs, occurs_in_lower in Hend.
    eapply occurs_in_trans; [|done]. by exists (py "."), [].
Qed.

Lemma foldl_paper_of_link search_url subject0 topic0 links papers :
  foldl (fun papers link => papers ++ paper_of_link urljoin search_url subject0 topic0 link)
        papers links
  = papers ++ (links ≫= paper_of_link urljoin search_url subject0 topic0).
Proof.
  revert papers. induction links as [|link links IH]; intros papers; simpl.
  - by rewrite app_nil_r.
  - by rewrite IH, <- app_assoc.
Qed.

(** X19: a search returns at most 5 papers; each of them carries the given
    subject and topic and a non-empty title, and comes from a link of the
    page whose target contains "pdf" and in whose text or target the subject
    and the topic occur, all without regard to case; its URL is the link's
    target resolved against the search URL.  A failed request gives no
    paper. *)
Theorem search_papers_result (fetch : str → page) (search_url subject0 topic0 : str)
    (papers : list paper_info) :
  _search_papers urljoin fetch search_url subject0 topic0 = Some papers →
  length papers ≤ 5
  ∧ (fetch search_url = PageRequestFailed → papers = [])
  ∧ ∀ paper, paper ∈ papers →
      subject paper = subject0 ∧ topic paper = topic0 ∧ title paper ≠ []
      ∧ ∃ links link,
          fetch search_url = Page links ∧ link ∈ links
          ∧ url paper = urljoin search_url (href link)
          ∧ occurs_in (py "pdf") (lower (href link))
          ∧ (occurs_in (lower subject0) (lower (text link))
             ∨ occurs_in (lower subject0) (lower (href link)))
          ∧ (occurs_in (lower topic0) (lower (text link))
             ∨ occurs_in (lower topic0) (lower (href link))).
Proof.
  unfold _search_papers. destruct (fetch search_url) as [| |links] eqn:E; [|done|].
  - intros [= <-]. split; [simpl; lia|]. split; [done|]. by intros ? ?%elem_of_nil.
  - intros [= <-]. split; [rewrite length_take; lia|]. split; [done|].
    intros paper Hin. rewrite foldl_paper_of_link in Hin. simpl in Hin.
    apply elem_of_take in Hin as (i & Hin & _).
    apply list_elem_of_lookup_2, list_elem_of_bind in Hin as (link & Hp & Hl).
    apply paper_of_link_spec in Hp as (? & ? & ? & ? & ? & ? & ?).
    repeat split; try done. by exists links, link.
Qed.

End searching.

Lemma search_papers_result_witness :
  length [ {| url := py "files/algebra-exam.pdf"; title := py "Algebra exam 2021";
              subject := py "exam"; topic := py "Algebra" |} ] ≤ 5.
Proof.
  apply (search_papers_result (λ _ target, target)
           (λ _, Page [ {| href := py "files/algebra-exam.pdf";
                           text := py " Algebra exam 2021 " |};
                        {| href := py "about.html"; text := py "About" |} ])
           (py "https://papers.example.com/search") (py "exam") (py "Algebra")).
  reflexivity.
Defined.

Lemma file_path_of_nonempty paper : nonempty (file_path_of paper) = true.
Proof. reflexivity. Qed.

Lemma insert_computed_path (disk0 disk : files) paper v :
  (∀ p, disk !! p = disk0 !! p ∨ ∃ paper, p = file_path_of paper) →
  ∀ p, <[file_path_of paper := v]> disk !! p = disk0 !! p ∨ ∃ paper, p = file_path_of paper.
Proof.
  intros Hnew p. destruct (decide (p = file_path_of paper)) as [->|Hne].
  - right. by exists paper.
  - rewrite lookup_insert_ne by done. apply Hnew.
Qed.

Lemma download_papers_inv os get disk0 papers st :
  scrape_inv disk0 st →
  scrape_inv disk0 (download_papers os get st papers)
  ∧ (download_papers os get st papers).2 ≤ st.2 + length papers.
Proof.
  revert st. induction papers as [|paper papers IH]; intros st Hst.
  { simpl. split; [done | lia]. }
  destruct st as [[disk downloaded] k]. destruct Hst as (Hsub & Hex & Hnew & Hlen).
  cbn [download_papers].
  destruct (download_paper_cases (os k) (get k) disk paper)
    as [[_ ->]|[(_ & His & ->)|[(_ & _ & ->)|[(partial & _ & Hnone & ->)|(r & _ & Hnone & _ & ->)]]]].
  - split; [|simpl; lia]. split; [done|]. split; [done|]. split; [done | lia].
  - rewrite file_path_of_nonempty.
    destruct (IH (disk, downloaded ++ [file_path_of paper], S k)) as [Hinv Hk].
    { split; [done|]. split; [|split; [done|]].
      - apply Forall_app. split; [done|]. by repeat constructor.
      - rewrite length_app. simpl. lia. }
    split; [done|]. simpl in *. lia.
  - destruct (IH (disk, downloaded, S k)) as [Hinv Hk].
    { split; [done|]. split; [done|]. split; [done | lia]. }
    split; [done|]. simpl in *. lia.
  - destruct (IH (<[file_path_of paper := partial]> disk, downloaded, S k)) as [Hinv Hk].
    { split; [etrans; [done|]; by apply insert_subseteq|].
      split; [|split; [by apply insert_computed_path | lia]].
      eapply Forall_impl; [done|]. intros p [v Hp]. exists v.
      eapply lookup_weaken; [done|]. by apply insert_subseteq. }
    split; [done|]. simpl in *. lia.
  - rewrite file_path_of_nonempty.
    destruct (IH (<[file_path_of paper := content r]> disk,
                  downloaded ++ [file_path_of paper], S k)) as [Hinv Hk].
    { split; [etrans; [done|]; by apply insert_subseteq|].
      split; [|split; [by apply insert_computed_path|]].
      - apply Forall_app. split.
        + eapply Forall_impl; [done|]. intros p [v Hp]. exists v.
          eapply lookup_weaken; [done|]. by apply insert_subseteq.
        + repeat constructor. rewrite lookup_insert_eq. by eexists.
      - rewrite length_app. simpl. lia. }
    split; [done|]. simpl in *. lia.
Qed.

Lemma search_papers_length urljoin fetch search_url subject0 topic0 papers :
  _search_papers urljoin fetch search_url subject0 topic0 = Some papers → length papers ≤ 5.
Proof.
  unfold _search_papers. destruct (fetch search_url); [| done |].
  - intros [= <-]. simpl. lia.
  - intros [= <-]. rewrite length_take. lia.
Qed.

Lemma search_step_inv urljoin fetch os get subject0 topic0 disk0 st search_url :
  scrape_inv disk0 st →
  scrape_inv disk0 (search_step urljoin fetch os get subject0 topic0 st search_url)
  ∧ (search_step urljoin fetch os get subject0 topic0 st search_url).2 ≤ st.2 + 5.
Proof.
  intros Hst. unfold search_step.
  destruct (_search_papers urljoin fetch search_url subject0 topic0) as [papers|] eqn:E.
  - apply search_papers_length in E.
    destruct (download_papers_inv os get disk0 papers st Hst) as [Hinv Hk].
    split; [done|]. lia.
  - split; [done | lia].
Qed.

(** X20: scraping never removes or changes a file that was on disk, and a
    file that it adds is stored under the path computed for some paper; when
    it returns, every path it returns is a file on disk afterwards and it
    returns at most 10 paths, also where a download raises or a write fails;
    when creating the download directory raises, it leaves the disk as it
    was. *)
Theorem scrape_papers_result (urljoin : str → str → str) (fetch : str → page)
    (mkdir_raises : bool) (os : nat → file_system) (get : nat → str → fetched)
    (disk : files) (subject0 topic0 : str) :
  disk ⊆ (scrape_papers urljoin fetch mkdir_raises os get disk subject0 topic0).1
  ∧ (∀ p, (scrape_papers urljoin fetch mkdir_raises os get disk subject0 topic0).1 !! p
          = disk !! p
          ∨ ∃ paper, p = file_path_of paper)
  ∧ match (scrape_papers urljoin fetch mkdir_raises os get disk subject0 topic0).2 with
    | Some downloaded_files =>
        mkdir_raises = false
        ∧ Forall (λ p, is_Some ((scrape_papers urljoin fetch mkdir_raises os get disk
                                   subject0 topic0).1 !! p)) downloaded_files
        ∧ length downloaded_files ≤ 10
    | None =>
        mkdir_raises = true
        ∧ (scrape_papers urljoin fetch mkdir_raises os get disk subject0 topic0).1 = disk
    end.
Proof.
  unfold scrape_papers, _generate_search_urls.
  destruct mkdir_raises; [simpl; split; [done|]; split; [by left | done]|].
  cbn [foldl].
  assert (H0 : scrape_inv disk (disk, [], 0)).
  { split; [done|]. split; [constructor|]. split; [by left | done]. }
  destruct (search_step_inv urljoin fetch os get subject0 topic0 disk _
              (py "https://example-academic-site.com/search?q=" ++ subject0 ++ py "+"
               ++ topic0 ++ py "+exam") H0) as [H1 Hk1].
  destruct (search_step_inv urljoin fetch os get subject0 topic0 disk _
              (py "https://papers.example.com/search?subject=" ++ subject0
               ++ py "&topic=" ++ topic0) H1) as [H2 Hk2].
  destruct (search_step urljoin fetch os get subject0 topic0
              (search_step urljoin fetch os get subject0 topic0 (disk, [], 0) _) _)
    as [[disk' downloaded] k].
  destruct H2 as (? & ? & ? & ?). simpl in *. repeat split; try done. lia.
Qed.

(** ** Utilities *)

Lemma replace_all_chars chars s :
  "_"%char ∉ chars →
  foldl (fun filename char => replace_char char "_" filename) s chars
  = map (fun c => if bool_decide (c ∈ chars) then "_"%char else c) s.
Proof.
  revert s. induction chars as [|x chars IH]; intros s Hnot; simpl.
  - by rewrite list_fmap_id.
  - rewrite IH by (intros ?; apply Hnot, elem_of_cons; by right).
    unfold replace_char. rewrite <- list_fmap_compose. apply list_fmap_ext.
    intros i c _. simpl. destruct (decide (c = x)) as [->|Hne].
    + rewrite (bool_decide_eq_true_2 (x = x)) by done.
      rewrite (bool_decide_eq_false_2 ("_"%char ∈ chars))
        by (intros ?; apply Hnot, elem_of_cons; by right).
      by rewrite bool_decide_eq_true_2 by (apply elem_of_cons; by left).
    + rewrite (bool_decide_eq_false_2 (c = x)) by done.
      destruct (decide (c ∈ chars)) as [Hc|Hc].
      * rewrite (bool_decide_eq_true_2 (c ∈ chars)) by done.
        by rewrite bool_decide_eq_true_2 by (apply elem_of_cons; by right).
      * rewrite (bool_decide_eq_false_2 (c ∈ chars)) by done.
        by rewrite bool_decide_eq_false_2 by (by intros [?|?]%elem_of_cons).
Qed.

Lemma elem_of_join c sep ws : c ∈ join sep ws → c ∈ sep ∨ ∃ w, w ∈ ws ∧ c ∈ w.
Proof.
  induction ws as [|w ws IH]; [by intros ?%elem_of_nil|].
  destruct ws as [|w' ws].
  - simpl. intros H. right. exists w. split; [apply elem_of_cons; by left | done].
  - change (join sep (w :: w' :: ws)) with (w ++ sep ++ join sep (w' :: ws)).
    rewrite !elem_of_app. intros [H|[H|H]]; [|by left|].
    + right. exists w. split; [apply elem_of_cons; by left | done].
    + destruct (IH H) as [?|(v & Hv & ?)]; [by left|]. right. exists v.
      split; [apply elem_of_cons; by right | done].
Qed.

Lemma occurs_in_elem c x s : occurs_in x s → c ∈ x → c ∈ s.
Proof. intros (a & b & ->) H. rewrite !elem_of_app. auto. Qed.

Lemma fields_no_sep_id sep s :
  Forall (λ c, sep c = false) s → fields sep s = [s].
Proof. induction 1 as [|c s Hc Hs IH]; simpl; [done|]. by rewrite Hc, IH. Qed.

(** X21: a cleaned file name has none of the characters of [invalid_chars]
    (angle brackets, colon, double quote, slash, backslash, bar, question
    mark, star) and no whitespace; and cleaning is idempotent. *)
Theorem clean_filename_safe (filename : str) :
  Forall (λ c, (c ∉ invalid_chars) ∧ isspace c = false) (clean_filename filename)
  ∧ clean_filename (clean_filename filename) = clean_filename filename.
Proof.
  assert (Hund : "_"%char ∉ invalid_chars).
  { intros H%list_elem_of_In. vm_compute in H. intuition discriminate. }
  assert (Hsafe : Forall (λ c, (c ∉ invalid_chars) ∧ isspace c = false)
                    (clean_filename filename)).
  { unfold clean_filename. rewrite replace_all_chars by done.
    apply Forall_forall. intros c [Hc|(w & Hw & Hc)]%elem_of_join.
    - apply list_elem_of_singleton in Hc as ->. done.
    - split.
      + apply split_occurs in Hw. apply (occurs_in_elem c) in Hw; [|done].
        apply list_elem_of_fmap in Hw as (d & -> & _).
        case_bool_decide; done.
      + unfold split in Hw. apply list_elem_of_filter in Hw as [_ Hw].
        pose proof (fields_no_sep isspace
                      (map (fun c => if bool_decide (c ∈ invalid_chars) then "_"%char else c)
                           filename)) as Hf.
        rewrite Forall_forall in Hf. specialize (Hf w Hw).
        rewrite Forall_forall in Hf. by apply Hf. }
  split; [done|].
  set (r := clean_filename filename) in *. unfold clean_filename at 1.
  rewrite replace_all_chars by done.
  assert (Hmap : map (fun c => if bool_decide (c ∈ invalid_chars) then "_"%char else c) r = r).
  { rewrite <- (list_fmap_id r) at 2. apply Forall_fmap_ext_1.
    eapply Forall_impl; [done|]. intros c [Hc _]. simpl. by rewrite bool_decide_eq_false_2. }
  rewrite Hmap. unfold split. rewrite fields_no_sep_id.
  - destruct r; done.
  - eapply Forall_impl; [done|]. by intros c [_ ?].
Qed.

(** X22: a cache key has no space; and it does not tell where the subject
    ends and the topic begins: moving a word from the subject to the topic
    gives the same key, as does writing an underscore for a space. *)
Theorem create_cache_key_collisions (s t u : str) :
  (" "%char ∉ create_cache_key s u)
  ∧ create_cache_key (s ++ py " " ++ t) u = create_cache_key s (t ++ py " " ++ u)
  ∧ create_cache_key (s ++ py "_" ++ t) u = create_cache_key (s ++ py " " ++ t) u.
Proof.
  split; [|split].
  - unfold create_cache_key, replace_char. rewrite !elem_of_app, !list_elem_of_fmap.
    intros [(c & Hc & _)|[H|(c & Hc & _)]].
    + by case_bool_decide.
    + by apply list_elem_of_singleton in H.
    + by case_bool_decide.
  - unfold create_cache_key, replace_char, lower. rewrite !map_app. simpl.
    by rewrite <- !app_assoc.
  - unfold create_cache_key, replace_char, lower. by rewrite !map_app.
Qed.

(** X23: after a download that wrote a new file, [file_exists] holds for the
    returned path, [get_file_size] gives the length of the response body, and
    [is_valid_pdf] holds exactly when the body begins with the bytes %PDF. *)
Theorem downloaded_file_on_disk (os : file_system) (get : str → fetched) (disk : files)
    (paper : paper_info) (file_path : str) :
  disk !! file_path_of paper = None →
  (_download_paper os get disk paper).2 = Returns (Some file_path) →
  ∃ r, get (url paper) = Response r
       ∧ file_exists (_download_paper os get disk paper).1 file_path = true
       ∧ get_file_size (_download_paper os get disk paper).1 file_path = length (content r)
       ∧ (is_valid_pdf (_download_paper os get disk paper).1 file_path = true
          ↔ take 4 (content r) = pdf_magic).
Proof.
  intros Hnone.
  destruct (download_paper_cases os get disk paper)
    as [[_ ->]|[(_ & [v Hv] & _)|[(_ & _ & ->)|[(partial & _ & _ & ->)|(r & _ & _ & Hget & ->)]]]];
    try done.
  - by rewrite Hnone in Hv.
  - simpl. intros [= <-]. exists r. split; [done|].
    unfold file_exists, get_file_size, is_valid_pdf. rewrite lookup_insert_eq.
    split; [by rewrite bool_decide_eq_true_2 by by eexists|]. split; [done|].
    apply bool_decide_eq_true.
Qed.

Lemma downloaded_file_on_disk_witness :
  ∃ r, (λ _ : str, Response {| status_code := 200;
                              content_type_header := Some (py "application/pdf");
                              content := pdf_magic |})
         (py "https://papers.example.com/a.pdf") = Response r
       ∧ file_exists
           (_download_paper
              {| exists_raises := λ _, false; write_file := λ _ _, Written |}
              (λ _, Response {| status_code := 200;
                                content_type_header := Some (py "application/pdf");
                                content := pdf_magic |})
              ∅ {| url := py "https://papers.example.com/a.pdf"; title := py "Algebra 2022";
                   subject := py "Mathematics"; topic := py "Algebra" |}).1
           (py "data/raw_papers/Algebra_2022.pdf") = true.
Proof.
  destruct (downloaded_file_on_disk
    {| exists_raises := λ _, false; write_file := λ _ _, Written |}
    (λ _, Response {| status_code := 200;
                      content_type_header := Some (py "application/pdf");
                      content := pdf_magic |})
    ∅ {| url := py "https://papers.example.com/a.pdf"; title := py "Algebra 2022";
         subject := py "Mathematics"; topic := py "Algebra" |}
    (py "data/raw_papers/Algebra_2022.pdf")) as (r & Hr & Hex & _).
  - apply lookup_empty.
  - by vm_compute.
  - exists r. by split.
Defined.
